(** * UDP stress test: sender wire format and receiver statistics

    A shallow embedding of [udp_sender.py] and [udp_receiver.py].

    Conventions of the embedding:
    - Python [int] is [Z]; Python [float] is the kernel's binary64
      [float], so quotients are the ones the interpreter computes;
    - [bytes] is [list byte]; the [set] of sequence numbers is [gset Z];
    - an exception is a value [Raise e] of [result]; where a function
      also mutates the statistics dictionary it returns the dictionary
      as it stands when the exception leaves the function;
    - [time.time()] is an argument ([now]) of the function that reads it;
    - the code is embedded in two layers. The first takes the language
      as it is defined: integers of any size, conversions of any length,
      repetitions of any count; it is the interpreter with the digit
      limit switched off and memory without bound. The second, under
      "The interpreter's limits", is the same code under the limits of
      the interpreter:
      the cap on the digits of an int/str conversion
      ([sys.set_int_max_str_digits], 4300 unless configured), the range
      of a machine index ([sys.maxsize]) and the memory the allocator
      grants. The two layers agree wherever no limit is reached, which
      is shown where the second layer is used. *)

From Stdlib Require Import ZArith List Lia Floats Strings.Byte.
From stdpp Require Import gmap list strings.
From Equations Require Import Equations.

Open Scope Z_scope.

(** ** Python values and exceptions *)

Inductive exn : Set :=
| ValueError
| IndexError
| UnboundLocalError
| OverflowError
| ZeroDivisionError
| MemoryError.

Inductive result (A : Type) : Type :=
| Ok (a : A)
| Raise (e : exn).

Arguments Ok {A} a.
Arguments Raise {A} e.

#[global] Instance result_ret : MRet result := fun A a => Ok a.

#[global] Instance result_bind : MBind result := fun A B k c =>
  match c with
  | Ok a => k a
  | Raise e => Raise e
  end.

(** A number as the receiver holds it: the [else] branches store the int
    [0] where the [then] branches store a float. *)
Inductive num : Set :=
| Int (z : Z)
| Float (f : float).

Definition bytes : Type := list byte.

(** A bytes literal, [b"..."] in the source. *)
Definition b (s : string) : bytes := String.list_byte_of_string s.
Arguments b s%_string.

Definition len {A : Type} (l : list A) : Z := Z.of_nat (length l).

(** *** int and float arithmetic *)

(** [float(z)]: the nearest binary64, ties to even; an int too large to
    convert raises [OverflowError]. *)
Definition float_of_int (z : Z) : result float :=
  let f := SF2Prim (binary_normalize prec emax z 0 false) in
  if is_infinity f then Raise OverflowError else Ok f.

Definition Z2SF (z : Z) : spec_float :=
  match z with
  | 0 => S754_zero false
  | Z.pos p => S754_finite false p 0
  | Z.neg p => S754_finite true p 0
  end.

(** [a / b] on two ints: the correctly rounded quotient. *)
Definition int_truediv (a c : Z) : result float :=
  if c =? 0 then Raise ZeroDivisionError
  else
    let f := SF2Prim (SFdiv prec emax (Z2SF a) (Z2SF c)) in
    if is_infinity f then Raise OverflowError else Ok f.

Definition as_float (x : num) : result float :=
  match x with
  | Int z => float_of_int z
  | Float f => Ok f
  end.

(** [x / y], true division. *)
Definition truediv (x y : num) : result float :=
  match x, y with
  | Int a, Int c => int_truediv a c
  | _, _ =>
      fx ← as_float x;
      fy ← as_float y;
      if (fy =? 0)%float then Raise ZeroDivisionError else Ok (fx / fy)%float
  end.

(** [sum(xs)] over floats: the int [0] start value is converted by the
    first addition, the rest is a left-to-right chain of float additions.
    (From version 3.12 the interpreter carries a compensation term along,
    which can change the last bit; nothing below depends on the rounding
    of a sum of more than exactly representable values.) *)
Definition sum (xs : list float) : num :=
  match xs with
  | [] => Int 0
  | _ => Float (fold_left PrimFloat.add xs 0%float)
  end.

(** *** [str(n)] of an int *)

Definition digit_byte (d : Z) : byte :=
  match d with
  | 0 => "0" | 1 => "1" | 2 => "2" | 3 => "3" | 4 => "4"
  | 5 => "5" | 6 => "6" | 7 => "7" | 8 => "8" | _ => "9"
  end%byte.

Equations? digits_acc (n : Z) (acc : bytes) : bytes
  by wf (Z.to_nat (Z.log2 n)) lt :=
  digits_acc n acc with Z_lt_dec n 10 => {
    | left _ := digit_byte n :: acc ;
    | right _ := digits_acc (n / 10) (digit_byte (n mod 10) :: acc) }.
Proof.
  apply Z2Nat.inj_lt; try apply Z.log2_nonneg.
  apply Z.log2_lt_pow2; [apply Z.div_str_pos; lia|].
  pose proof (Z.log2_spec n ltac:(lia)) as [_ Hn].
  rewrite Z.pow_succ_r in Hn by apply Z.log2_nonneg.
  apply Z.div_lt_upper_bound; lia.
Qed.

(** [str(n)], also what [f"{n}"] puts in the string, for an [n] of any
    length; [str_int_limited] adds the interpreter's digit limit. *)
Definition str_int (n : Z) : bytes :=
  if n <? 0 then "-"%byte :: digits_acc (- n) [] else digits_acc n [].

(** *** [int(s)] of a bytes object, base 10 *)

(** ASCII whitespace: tab, line feed, vertical tab, form feed, carriage
    return, space. *)
Definition is_space (c : byte) : bool :=
  match c with
  | x09 | x0a | x0b | x0c | x0d | x20 => true
  | _ => false
  end.

Definition digit_value (c : byte) : option Z :=
  match c with
  | x30 => Some 0 | x31 => Some 1 | x32 => Some 2 | x33 => Some 3
  | x34 => Some 4 | x35 => Some 5 | x36 => Some 6 | x37 => Some 7
  | x38 => Some 8 | x39 => Some 9
  | _ => None
  end.

Definition is_digit (c : byte) : bool :=
  match digit_value c with Some _ => true | None => false end.

Fixpoint lstrip (s : bytes) : bytes :=
  match s with
  | c :: r => if is_space c then lstrip r else s
  | [] => []
  end.

(** The digit loop of the conversion: digits accumulate into [acc]; an
    underscore is accepted only between two digits; the loop stops at
    the first other byte and hands back what is left. *)
Fixpoint scan_digits (acc : Z) (s : bytes) : option (Z * bytes) :=
  match s with
  | [] => Some (acc, [])
  | c :: r =>
      match digit_value c with
      | Some d => scan_digits (10 * acc + d) r
      | None =>
          if Byte.eqb c "_" then
            match r with
            | c' :: _ => if is_digit c' then scan_digits acc r else None
            | [] => None
            end
          else Some (acc, s)
      end
  end.

(** What follows the sign: at least one digit, the digit loop, optional
    whitespace, and nothing else. *)
Definition int_of_digits (neg : bool) (s : bytes) : result Z :=
  match s with
  | c :: _ =>
      if is_digit c then
        match scan_digits 0 s with
        | Some (v, rest) =>
            match lstrip rest with
            | [] => Ok (if neg then - v else v)
            | _ :: _ => Raise ValueError
            end
        | None => Raise ValueError
        end
      else Raise ValueError
  | [] => Raise ValueError
  end.

(** [int(s)]: optional whitespace, an optional sign, then the digits;
    anything else is a [ValueError]. Any number of digits is read;
    [int_of_bytes_limited] adds the interpreter's digit limit. *)
Definition int_of_bytes (s : bytes) : result Z :=
  match lstrip s with
  | c :: r =>
      if Byte.eqb c "+" then int_of_digits false r
      else if Byte.eqb c "-" then int_of_digits true r
      else int_of_digits false (c :: r)
  | [] => Raise ValueError
  end.

(** *** [bytes.split(sep)] for a one-byte separator, and slicing *)

Fixpoint bytes_split (sep : byte) (s : bytes) : list bytes :=
  match s with
  | [] => [[]]
  | c :: r =>
      if Byte.eqb c sep then [] :: bytes_split sep r
      else
        match bytes_split sep r with
        | h :: t => (c :: h) :: t
        | [] => [[c]]
        end
  end.

(** [l[0]] *)
Definition index0 {A : Type} (l : list A) : result A :=
  match l with
  | x :: _ => Ok x
  | [] => Raise IndexError
  end.

(** [l[:stop]]: a negative [stop] counts from the end. *)
Definition slice_to {A : Type} (l : list A) (stop : Z) : list A :=
  if stop <? 0 then firstn (Z.to_nat (len l + stop)) l
  else firstn (Z.to_nat stop) l.

(** [c * k] for a one-byte bytes object: empty when [k <= 0]. Any count
    is taken; [bytes_repeat_checked] adds the index range and the
    allocator. *)
Definition bytes_repeat (c : byte) (k : Z) : bytes := repeat c (Z.to_nat k).

(** ** Sender: the datagram of one loop iteration *)

(** [udp_sender.py], lines 56 and 59: the prefix [f"{packets_sent}:"],
    the filler [b'X' * (current_size - len(prefix) - 1)], and the slice
    [packet_data[:current_size]] handed to [sendto]. *)
Definition encode (packets_sent current_size : Z) : bytes :=
  let prefix := str_int packets_sent ++ [":"%byte] in
  let packet_data :=
    prefix ++ bytes_repeat "X" (current_size - len prefix - 1) in
  slice_to packet_data current_size.

(** ** Receiver *)

(** [udp_receiver.py], lines 127-128: [int(data.split(b':')[0])]. *)
Definition decode (data : bytes) : result Z :=
  seq_str ← index0 (bytes_split ":" data);
  int_of_bytes seq_str.

(** The statistics dictionary [stats] of [main], lines 21-36; the fields
    carry the names of its keys. *)
Record stats : Type := mk_stats {
  start_time : float;
  packets_received : Z;
  bytes_received : Z;
  last_seq_num : option Z;
  out_of_order : Z;
  duplicates : Z;
  missing : Z;
  sequence_numbers : gset Z;
  min_seq : option Z;
  max_seq : option Z;
  last_report_time : float;
  last_packets : Z;
  last_bytes : Z;
  one_sec_rates : list (float * float)
}.

(** The dictionary as [main] creates it; [t0] and [t1] are the two
    readings of the clock at lines 22 and 32. *)
Definition initial_stats (t0 t1 : float) : stats :=
  {| start_time := t0;
     packets_received := 0;
     bytes_received := 0;
     last_seq_num := None;
     out_of_order := 0;
     duplicates := 0;
     missing := 0;
     sequence_numbers := ∅;
     min_seq := None;
     max_seq := None;
     last_report_time := t1;
     last_packets := 0;
     last_bytes := 0;
     one_sec_rates := [] |}.

(** Lines 122-123: the raw counters of a datagram. *)
Definition count_packet (data : bytes) (st : stats) : stats :=
  {| start_time := start_time st;
     packets_received := packets_received st + 1;
     bytes_received := bytes_received st + len data;
     last_seq_num := last_seq_num st;
     out_of_order := out_of_order st;
     duplicates := duplicates st;
     missing := missing st;
     sequence_numbers := sequence_numbers st;
     min_seq := min_seq st;
     max_seq := max_seq st;
     last_report_time := last_report_time st;
     last_packets := last_packets st;
     last_bytes := last_bytes st;
     one_sec_rates := one_sec_rates st |}.

(** Lines 131-146: the sequence statistics of a decoded datagram. *)
Definition observe (seq_num : Z) (st : stats) : stats :=
  let seen := bool_decide (seq_num ∈ sequence_numbers st) in
  {| start_time := start_time st;
     packets_received := packets_received st;
     bytes_received := bytes_received st;
     last_seq_num := Some seq_num;
     out_of_order :=
       match last_seq_num st with
       | Some last => if seq_num <? last then out_of_order st + 1
                      else out_of_order st
       | None => out_of_order st
       end;
     duplicates := if seen then duplicates st + 1 else duplicates st;
     missing := missing st;
     sequence_numbers :=
       if seen then sequence_numbers st
       else {[seq_num]} ∪ sequence_numbers st;
     min_seq :=
       match min_seq st with
       | Some m => if seq_num <? m then Some seq_num else Some m
       | None => Some seq_num
       end;
     max_seq :=
       match max_seq st with
       | Some m => if m <? seq_num then Some seq_num else Some m
       | None => Some seq_num
       end;
     last_report_time := last_report_time st;
     last_packets := last_packets st;
     last_bytes := last_bytes st;
     one_sec_rates := one_sec_rates st |}.

(** Lines 121-149: one datagram through the receive path. The bare
    [except] swallows whatever the parse raises. *)
Definition receive (data : bytes) (st : stats) : stats :=
  let st := count_packet data st in
  match decode data with
  | Ok seq_num => observe seq_num st
  | Raise _ => st
  end.

Definition receive_all (datagrams : list bytes) (st : stats) : stats :=
  fold_left (fun st data => receive data st) datagrams st.

Definition observe_all (seqs : list Z) (st : stats) : stats :=
  fold_left (fun st seq_num => observe seq_num st) seqs st.

(** *** Rate sampling, [print_stats] lines 54-72 *)

(** Lines 58-61: append, then drop the head once there are more than 10. *)
Definition push_rate (w : list (float * float)) (r : float * float)
  : list (float * float) :=
  let w := w ++ [r] in
  if 10 <? len w then tail w else w.

(** Lines 55-56: the two quotients, in packets and in bits per second. *)
Definition rates (delta_packets delta_bytes : Z) (delta_seconds : float)
  : result (float * float) :=
  pps ← truediv (Int delta_packets) (Float delta_seconds);
  bps ← truediv (Int (delta_bytes * 8)) (Float delta_seconds);
  mret (pps, bps).

(** Lines 54-64. The arguments are the differences the caller takes:
    packets and bytes since the last report, and [elapsed]. The second
    component is [one_sec_rates] afterwards. *)
Definition tick (w : list (float * float))
    (delta_packets delta_bytes : Z) (delta_seconds : float)
  : result (num * num) * list (float * float) :=
  if (0 <? delta_seconds)%float then
    match rates delta_packets delta_bytes delta_seconds with
    | Ok (pps, bps) => (Ok (Float pps, Float bps), push_rate w (pps, bps))
    | Raise e => (Raise e, w)
    end
  else (Ok (Int 0, Int 0), w).

(** Lines 67-72. *)
Definition average (w : list (float * float)) : result (num * num) :=
  match w with
  | [] => Ok (Int 0, Int 0)
  | _ :: _ =>
      avg_pps ← truediv (sum (map fst w)) (Int (len w));
      avg_bps ← truediv (sum (map snd w)) (Int (len w));
      mret (Float avg_pps, Float avg_bps)
  end.

(** A run of ticks from one window: it ends with the list, or with the
    first tick that raises. *)
Fixpoint tick_all (w : list (float * float)) (ticks : list (Z * Z * float))
  : list (float * float) :=
  match ticks with
  | [] => w
  | (dp, db, dt) :: rest =>
      match tick w dp db dt with
      | (Ok _, w') => tick_all w' rest
      | (Raise _, w') => w'
      end
  end.

(** *** Loss statistics, [print_stats] lines 74-83 *)

(** The locals the block leaves behind; [received] is bound only on the
    branch that has both bounds. *)
Record snapshot_t : Type := mk_snapshot {
  expected : Z;
  received : option Z;
  loss_percent : num
}.

Definition snapshot (st : stats) : result snapshot_t :=
  match min_seq st, max_seq st with
  | Some mn, Some mx =>
      let expected := mx - mn + 1 in
      let received := Z.of_nat (size (sequence_numbers st)) in
      if 0 <? expected then
        loss ← truediv (Int (100 * (expected - received))) (Int expected);
        mret (mk_snapshot expected (Some received) (Float loss))
      else mret (mk_snapshot expected (Some received) (Int 0))
  | _, _ => mret (mk_snapshot 0 None (Int 0))
  end.

(** Line 94: [expected - received if expected > received else 0]. *)
Definition missing_packets (s : snapshot_t) : result Z :=
  match received s with
  | Some r => Ok (if r <? expected s then expected s - r else 0)
  | None => Raise UnboundLocalError
  end.

(** *** The report, [print_stats] lines 85-110 *)

(** The values handed to the formatter, before [:.2f] and the like. *)
Record summary : Type := mk_summary {
  test_duration : float;
  total_packets : Z;
  total_bytes : Z;
  average_packet_rate : num;
  average_bit_rate : num;
  sequence_range : option Z * option Z;
  expected_packets : Z;
  missing_count : Z;
  duplicate_packets : Z;
  out_of_order_packets : Z;
  packet_loss : num;
  rate_history : list (float * float * float)
}.

Inductive report : Type :=
| Line (pps : num) (mbps : float) (loss : num)
| Final (s : summary).

(** Lines 100-101: offset, packet rate and Mbps of each sample. *)
Fixpoint history (total_elapsed : float) (n i : Z) (w : list (float * float))
  : result (list (float * float * float)) :=
  match w with
  | [] => Ok []
  | (rate_pps, rate_bps) :: rest =>
      fn ← float_of_int n;
      fi ← float_of_int i;
      mbps ← truediv (Float rate_bps) (Int 1000000);
      more ← history total_elapsed n (i + 1) rest;
      mret ((total_elapsed - fn + fi + 1, rate_pps, mbps)%float :: more)
  end.

(** Lines 86-101, in the order the lines evaluate their expressions.
    The ints are printed whatever their length; [final_summary_limited]
    adds the digit limit of their conversion. *)
Definition final_summary (total_elapsed : float) (st : stats)
    (s : snapshot_t) : result summary :=
  rate ←
    (if (0 <? total_elapsed)%float then
       r ← truediv (Int (packets_received st)) (Float total_elapsed);
       mret (Float r)
     else mret (Int 0));
  bits ←
    (if (0 <? total_elapsed)%float then
       r ← truediv (Int (bytes_received st * 8)) (Float total_elapsed);
       r ← truediv (Float r) (Int 1000000);
       mret (Float r)
     else mret (Int 0));
  lost ← missing_packets s;
  hist ← history total_elapsed (len (one_sec_rates st)) 0 (one_sec_rates st);
  mret {| test_duration := total_elapsed;
          total_packets := packets_received st;
          total_bytes := bytes_received st;
          average_packet_rate := rate;
          average_bit_rate := bits;
          sequence_range := (min_seq st, max_seq st);
          expected_packets := expected s;
          missing_count := lost;
          duplicate_packets := duplicates st;
          out_of_order_packets := out_of_order st;
          packet_loss := loss_percent s;
          rate_history := hist |}.

Definition set_one_sec_rates (w : list (float * float)) (st : stats) : stats :=
  {| start_time := start_time st;
     packets_received := packets_received st;
     bytes_received := bytes_received st;
     last_seq_num := last_seq_num st;
     out_of_order := out_of_order st;
     duplicates := duplicates st;
     missing := missing st;
     sequence_numbers := sequence_numbers st;
     min_seq := min_seq st;
     max_seq := max_seq st;
     last_report_time := last_report_time st;
     last_packets := last_packets st;
     last_bytes := last_bytes st;
     one_sec_rates := w |}.

(** Lines 108-110. *)
Definition mark_reported (now : float) (st : stats) : stats :=
  {| start_time := start_time st;
     packets_received := packets_received st;
     bytes_received := bytes_received st;
     last_seq_num := last_seq_num st;
     out_of_order := out_of_order st;
     duplicates := duplicates st;
     missing := missing st;
     sequence_numbers := sequence_numbers st;
     min_seq := min_seq st;
     max_seq := max_seq st;
     last_report_time := now;
     last_packets := packets_received st;
     last_bytes := bytes_received st;
     one_sec_rates := one_sec_rates st |}.

(** [print_stats(stats, final)], lines 49-110, with the clock reading
    [now] of line 50. The result is what it prints, or the exception it
    raises, and the dictionary afterwards. *)
Definition print_stats (final : bool) (now : float) (st : stats)
  : result report * stats :=
  let elapsed := (now - last_report_time st)%float in
  let total_elapsed := (now - start_time st)%float in
  let '(rates, w) :=
    tick (one_sec_rates st)
         (packets_received st - last_packets st)
         (bytes_received st - last_bytes st) elapsed in
  let st := set_one_sec_rates w st in
  let printed :=
    '(pps, bps) ← rates;
    _ ← average w;
    s ← snapshot st;
    if final then
      r ← final_summary total_elapsed st s;
      mret (Final r)
    else
      mbps ← truediv bps (Int 1000000);
      mret (Line pps mbps (loss_percent s)) in
  match printed with
  | Ok r => (Ok r, mark_reported now st)
  | Raise e => (Raise e, st)
  end.

(** ** Reference definitions for [decode]

    Two descriptions to compare [decode] with: the condition the
    specification gives for a parse error, and the literals that [int]
    accepts, written as a grammar. *)

(** The bytes before the first delimiter; all of them when there is none. *)
Fixpoint before_delimiter (data : bytes) : bytes :=
  match data with
  | [] => []
  | c :: r => if Byte.eqb c ":" then [] else c :: before_delimiter r
  end.

(** A non-negative decimal integer: one or more digits, nothing else. *)
Definition decimal_digits (s : bytes) : Prop :=
  s <> [] /\ Forall (fun c => is_digit c = true) s.

(** The parse-error condition in the specification's words: the
    delimiter is missing, or the prefix is not a non-negative decimal
    integer. *)
Definition spec_parse_error (data : bytes) : Prop :=
  ":"%byte ∉ data \/ ~ decimal_digits (before_delimiter data).

(** What may follow the first digit: digits, each optionally preceded by
    one underscore. *)
Inductive digit_tail : bytes -> Prop :=
| tail_nil : digit_tail []
| tail_digit (c : byte) (s : bytes) :
    is_digit c = true -> digit_tail s -> digit_tail (c :: s)
| tail_underscore (c : byte) (s : bytes) :
    is_digit c = true -> digit_tail s -> digit_tail ("_"%byte :: c :: s).

(** The number the digits of [s] spell in base 10 after a prefix worth
    [acc]; bytes that are not digits (the underscores) are passed over. *)
Definition decimal_value (acc : Z) (s : bytes) : Z :=
  fold_left (fun v c => match digit_value c with
                        | Some d => 10 * v + d
                        | None => v
                        end) s acc.

(** [int_literal s n]: [s] is whitespace, an optional sign, a digit with
    its tail, and whitespace again, and it denotes [n]. *)
Inductive int_literal : bytes -> Z -> Prop :=
| int_literal_unsigned (ws1 ws2 body : bytes) (c : byte) :
    Forall (fun x => is_space x = true) ws1 ->
    Forall (fun x => is_space x = true) ws2 ->
    is_digit c = true -> digit_tail body ->
    int_literal (ws1 ++ (c :: body) ++ ws2) (decimal_value 0 (c :: body))
| int_literal_plus (ws1 ws2 body : bytes) (c : byte) :
    Forall (fun x => is_space x = true) ws1 ->
    Forall (fun x => is_space x = true) ws2 ->
    is_digit c = true -> digit_tail body ->
    int_literal (ws1 ++ "+"%byte :: (c :: body) ++ ws2)
                (decimal_value 0 (c :: body))
| int_literal_minus (ws1 ws2 body : bytes) (c : byte) :
    Forall (fun x => is_space x = true) ws1 ->
    Forall (fun x => is_space x = true) ws2 ->
    is_digit c = true -> digit_tail body ->
    int_literal (ws1 ++ "-"%byte :: (c :: body) ++ ws2)
                (- decimal_value 0 (c :: body)).

(** ** The invariant of the sequence statistics

    What lines 131-146 keep: the two bounds are set together, and every
    number seen lies between them. *)
Definition bounds_inv (st : stats) : Prop :=
  match min_seq st, max_seq st with
  | Some mn, Some mx =>
      mn <= mx /\ forall x, x ∈ sequence_numbers st -> mn <= x <= mx
  | None, None => sequence_numbers st = ∅
  | _, _ => False
  end.

(** What every pass through lines 121-149 keeps as well: the duplicates
    are among the packets counted. *)
Definition tracker_inv (st : stats) : Prop :=
  0 <= duplicates st <= packets_received st /\ bounds_inv st.

(** Once both bounds are set: they are ordered, the distinct numbers
    seen fit between them, and [expected - received] is not negative. *)
Definition range_covers_seen (st : stats) : Prop :=
  match min_seq st, max_seq st with
  | Some mn, Some mx =>
      mn <= mx /\
      Z.of_nat (size (sequence_numbers st)) <= mx - mn + 1 /\
      0 <= (mx - mn + 1) - Z.of_nat (size (sequence_numbers st))
  | _, _ => True
  end.

(** ** Ticks that take a sample

    [sampled t r]: the tick with arguments [t] has a positive
    [delta_seconds] and its two quotients are the pair [r], so line 58
    appends [r] to the window. *)
Definition sampled (t : Z * Z * float) (r : float * float) : Prop :=
  let '(delta_packets, delta_bytes, delta_seconds) := t in
  (0 <? delta_seconds)%float = true /\
  rates delta_packets delta_bytes delta_seconds = Ok r.

(** Both bounds, once set, are numbers that were seen. *)
Definition bounds_reached (st : stats) : Prop :=
  match min_seq st, max_seq st with
  | Some mn, Some mx =>
      mn ∈ sequence_numbers st /\ mx ∈ sequence_numbers st
  | None, None => True
  | _, _ => False
  end.

(** The six fields that lines 131-146 maintain. *)
Definition sequence_stats (st : stats)
  : gset Z * option Z * option Z * option Z * Z * Z :=
  (sequence_numbers st, min_seq st, max_seq st, last_seq_num st,
   duplicates st, out_of_order st).

(** ** Receiver: the main loop, lines 119-158

    One pass of the [while True] body. [a] is what [recvfrom] gave, a
    datagram or the timeout of line 151; [now] is the clock reading of
    line 156 and [now'] the one [print_stats] takes at line 50. The
    interrupt is not part of the pass. *)
Inductive arrival : Type :=
| Datagram (data : bytes)
| Timeout.

Definition loop_iteration (a : arrival) (now now' : float) (st : stats)
  : result (option report) * stats :=
  let st :=
    match a with
    | Datagram data => receive data st
    | Timeout => st
    end in
  if (1 <=? now - last_report_time st)%float then
    match print_stats false now' st with
    | (Ok r, st) => (Ok (Some r), st)
    | (Raise e, st) => (Raise e, st)
    end
  else (Ok None, st).

(** A run of passes: the reports printed and the dictionary at the end,
    or at the pass whose report raised. *)
Fixpoint main_loop (steps : list (arrival * float * float)) (st : stats)
  : list report * result unit * stats :=
  match steps with
  | [] => ([], Ok tt, st)
  | (a, now, now') :: rest =>
      match loop_iteration a now now' st with
      | (Ok r, st) =>
          let '(out, res, st) := main_loop rest st in
          (match r with Some l => l :: out | None => out end, res, st)
      | (Raise e, st) => ([], Raise e, st)
      end
  end.

(** What the main loop keeps besides [tracker_inv]: the window bound and
    the report baselines not ahead of the counters. *)
Definition loop_inv (st : stats) : Prop :=
  tracker_inv st /\
  (length (one_sec_rates st) <= 10)%nat /\
  0 <= last_packets st <= packets_received st /\
  0 <= last_bytes st <= bytes_received st.

(** ** Measures of an arrival order *)

(** The arrivals smaller than the arrival just before them. *)
Fixpoint descents (seqs : list Z) : Z :=
  match seqs with
  | x :: rest =>
      match rest with
      | y :: _ => (if y <? x then 1 else 0) + descents rest
      | [] => 0
      end
  | [] => 0
  end.


Definition total_len (datagrams : list bytes) : Z :=
  foldr (fun data n => len data + n) 0 datagrams.

(** Strictly increasing arrival order. *)
Fixpoint increasing (seqs : list Z) : Prop :=
  match seqs with
  | x :: rest =>
      match rest with
      | y :: _ => x < y /\ increasing rest
      | [] => True
      end
  | [] => True
  end.

(** ** Sender: the send loop, [udp_sender.py] lines 34-72 *)

Module Sender.

(** The counters of [main], lines 34-38. *)
Record state : Type := mk_state {
  packets_sent : Z;
  bytes_sent : Z;
  last_report_time : float;
  last_packets_sent : Z;
  last_bytes_sent : Z
}.

Definition initial (t : float) : state :=
  {| packets_sent := 0;
     bytes_sent := 0;
     last_report_time := t;
     last_packets_sent := 0;
     last_bytes_sent := 0 |}.

(** [random.randint(lo, hi)]: some integer of [lo .. hi], here picked
    by [draw]; an empty range is a [ValueError]. *)
Definition randint (lo hi draw : Z) : result Z :=
  if hi <? lo then Raise ValueError
  else Ok (lo + draw mod (hi - lo + 1)).

(** Lines 50-53. *)
Definition choose_size (use_random_size : bool) (packet_size draw : Z)
  : result Z :=
  if use_random_size then randint 64 packet_size draw else Ok packet_size.

(** Lines 64-72: the rate line, once a second; packets per second,
    Mbps and the total. *)
Definition report (now : float) (st : state)
  : result (option (float * float * Z)) * state :=
  if (1 <=? now - last_report_time st)%float then
    let elapsed := (now - last_report_time st)%float in
    match (pps ← truediv (Int (packets_sent st - last_packets_sent st))
                         (Float elapsed);
           bps ← truediv (Int ((bytes_sent st - last_bytes_sent st) * 8))
                         (Float elapsed);
           mbps ← truediv (Float bps) (Int 1000000);
           mret (pps, mbps, packets_sent st)) with
    | Ok line =>
        (Ok (Some line),
         {| packets_sent := packets_sent st;
            bytes_sent := bytes_sent st;
            last_report_time := now;
            last_packets_sent := packets_sent st;
            last_bytes_sent := bytes_sent st |})
    | Raise e => (Raise e, st)
    end
  else (Ok None, st).

(** Lines 49-72, one pass of the send loop without its pacing sleep:
    the datagram handed to [sendto], if the pass got that far, what the
    report block did, and the counters afterwards. [draw] feeds
    [randint], [now] is the clock reading of line 64. *)
Definition iteration (use_random_size : bool) (packet_size draw : Z)
    (now : float) (st : state)
  : option bytes * result (option (float * float * Z)) * state :=
  match choose_size use_random_size packet_size draw with
  | Raise e => (None, Raise e, st)
  | Ok current_size =>
      let packet := encode (packets_sent st) current_size in
      let st :=
        {| packets_sent := packets_sent st + 1;
           bytes_sent := bytes_sent st + current_size;
           last_report_time := last_report_time st;
           last_packets_sent := last_packets_sent st;
           last_bytes_sent := last_bytes_sent st |} in
      let '(line, st) := report now st in
      (Some packet, line, st)
  end.

(** A run of passes: the datagrams sent, in order, and the counters at
    the end or at the pass that raised. *)
Fixpoint run (use_random_size : bool) (packet_size : Z)
    (inputs : list (Z * float)) (st : state)
  : list bytes * result unit * state :=
  match inputs with
  | [] => ([], Ok tt, st)
  | (draw, now) :: rest =>
      match iteration use_random_size packet_size draw now st with
      | (sent, Ok _, st) =>
          let '(more, res, st) := run use_random_size packet_size rest st in
          (match sent with Some d => d :: more | None => more end, res, st)
      | (sent, Raise e, st) =>
          (match sent with Some d => [d] | None => [] end, Raise e, st)
      end
  end.

End Sender.

(** The sizes a pass may pick: the configured size, or with [--random]
    anything from 64 up to it. *)
Definition size_allowed (use_random_size : bool) (packet_size size : Z)
  : Prop :=
  if use_random_size then 64 <= size <= packet_size else size = packet_size.

Definition sum_sizes (sizes : list Z) : Z := foldr Z.add 0 sizes.


(** ** The interpreter's limits *)

(** [sys.maxsize] of a 64-bit interpreter: the largest machine index. *)
Definition maxsize : Z := 2 ^ 63 - 1.

(** [sys.int_info]: conversions of up to 640 digits are never checked,
    and the limit is 4300 digits unless configured otherwise. *)
Definition str_digits_check_threshold : Z := 640.
Definition default_max_str_digits : Z := 4300.

(** Whether a conversion between [int] and text of [digits] digits is
    refused under the limit [limit]; the limit 0 switches the check off. *)
Definition over_limit (limit digits : Z) : bool :=
  (str_digits_check_threshold <? digits) && (0 <? limit) && (limit <? digits).

(** The digits in a bytes object, and the decimal digits of an int
    (its sign is not counted). *)
Definition count_digits (s : bytes) : Z := len (List.filter is_digit s).

Definition decimal_digits_of (z : Z) : Z := len (digits_acc (Z.abs z) []).

(** [int(s)] under the limit: a literal with too many digits is a
    [ValueError] like any other text that is not a literal. *)
Definition int_of_bytes_limited (limit : Z) (s : bytes) : result Z :=
  n ← int_of_bytes s;
  if over_limit limit (count_digits s) then Raise ValueError else Ok n.

(** [udp_receiver.py], lines 127-128, under the limit. *)
Definition decode_limited (limit : Z) (data : bytes) : result Z :=
  seq_str ← index0 (bytes_split ":" data);
  int_of_bytes_limited limit seq_str.

(** [str(n)] and [f"{n}"] under the limit. *)
Definition str_int_limited (limit : Z) (n : Z) : result bytes :=
  if over_limit limit (decimal_digits_of n) then Raise ValueError
  else Ok (str_int n).

(** [c * k]: a count outside the machine index range is an
    [OverflowError]; a result larger than [max_alloc] is a
    [MemoryError]. The allocator is taken to grant a bytes object
    exactly when its length is at most [max_alloc], a parameter of the
    machine. *)
Definition bytes_repeat_checked (max_alloc : Z) (c : byte) (k : Z)
  : result bytes :=
  if (k <? - maxsize - 1) || (maxsize <? k) then Raise OverflowError
  else if max_alloc <? k then Raise MemoryError
  else Ok (bytes_repeat c k).

(** [x + y] on bytes objects. *)
Definition bytes_concat_checked (max_alloc : Z) (x y : bytes)
  : result bytes :=
  if max_alloc <? len x + len y then Raise MemoryError else Ok (x ++ y).

(** [udp_sender.py], lines 56 and 59, under the limits, in the order
    the line evaluates: the prefix, the filler count and the filler, the
    sum, and then the slice. *)
Definition encode_checked (limit max_alloc : Z)
    (packets_sent current_size : Z) : result bytes :=
  s ← str_int_limited limit packets_sent;
  let prefix := s ++ [":"%byte] in
  filler ← bytes_repeat_checked max_alloc "X"
             (current_size - len prefix - 1);
  packet_data ← bytes_concat_checked max_alloc prefix filler;
  mret (slice_to packet_data current_size).

(** An int in an f-string without a format spec goes through [str]. *)
Definition format_int (limit : Z) (z : Z) : result unit :=
  if over_limit limit (decimal_digits_of z) then Raise ValueError
  else Ok tt.

(** [min_seq] and [max_seq] in line 92: an int, or [None]. *)
Definition format_optional_int (limit : Z) (o : option Z) : result unit :=
  match o with
  | Some z => format_int limit z
  | None => Ok tt
  end.

(** Lines 86-101 under the limit, each line evaluating and then
    formatting its fields in order. The floats, and the int [0] under
    [.2f], always format. *)
Definition final_summary_limited (limit : Z) (total_elapsed : float)
    (st : stats) (s : snapshot_t) : result summary :=
  _ ← format_int limit (packets_received st);
  _ ← format_int limit (bytes_received st);
  rate ←
    (if (0 <? total_elapsed)%float then
       r ← truediv (Int (packets_received st)) (Float total_elapsed);
       mret (Float r)
     else mret (Int 0));
  bits ←
    (if (0 <? total_elapsed)%float then
       r ← truediv (Int (bytes_received st * 8)) (Float total_elapsed);
       r ← truediv (Float r) (Int 1000000);
       mret (Float r)
     else mret (Int 0));
  _ ← format_optional_int limit (min_seq st);
  _ ← format_optional_int limit (max_seq st);
  _ ← format_int limit (expected s);
  lost ← missing_packets s;
  _ ← format_int limit lost;
  _ ← format_int limit (duplicates st);
  _ ← format_int limit (out_of_order st);
  hist ← history total_elapsed (len (one_sec_rates st)) 0 (one_sec_rates st);
  mret {| test_duration := total_elapsed;
          total_packets := packets_received st;
          total_bytes := bytes_received st;
          average_packet_rate := rate;
          average_bit_rate := bits;
          sequence_range := (min_seq st, max_seq st);
          expected_packets := expected s;
          missing_count := lost;
          duplicate_packets := duplicates st;
          out_of_order_packets := out_of_order st;
          packet_loss := loss_percent s;
          rate_history := hist |}.

(** [print_stats(stats, final)] under the limit. The periodic line
    formats floats only. *)
Definition print_stats_limited (limit : Z) (final : bool) (now : float)
    (st : stats) : result report * stats :=
  let elapsed := (now - last_report_time st)%float in
  let total_elapsed := (now - start_time st)%float in
  let '(rates, w) :=
    tick (one_sec_rates st)
         (packets_received st - last_packets st)
         (bytes_received st - last_bytes st) elapsed in
  let st := set_one_sec_rates w st in
  let printed :=
    '(pps, bps) ← rates;
    _ ← average w;
    s ← snapshot st;
    if final then
      r ← final_summary_limited limit total_elapsed st s;
      mret (Final r)
    else
      mbps ← truediv bps (Int 1000000);
      mret (Line pps mbps (loss_percent s)) in
  match printed with
  | Ok r => (Ok r, mark_reported now st)
  | Raise e => (Raise e, st)
  end.

(** * Properties *)

(** ** The codec on a few datagrams *)

Example decode_plain : decode (b "17:XXXX") = Ok 17.
Proof. reflexivity. Qed.

Example decode_negative_prefix : decode (b "-5:XX") = Ok (-5).
Proof. reflexivity. Qed.

Example decode_spaces_and_underscore : decode (b " 1_000 :XX") = Ok 1000.
Proof. reflexivity. Qed.

Example decode_empty_prefix : decode (b ":XX") = Raise ValueError.
Proof. reflexivity. Qed.

Example decode_filler_only : decode (b "XXXX") = Raise ValueError.
Proof. reflexivity. Qed.

Example encode_with_filler : encode 7 5 = b "7:XX".
Proof. reflexivity. Qed.

Example encode_prefix_only : encode 7 2 = b "7:".
Proof. reflexivity. Qed.

Example encode_cut_prefix : encode 12345 3 = b "123".
Proof. reflexivity. Qed.

(** ** Floats: the two facts about comparisons the branches rely on *)

Lemma float_pos_nonzero (e : float) :
  (0 <? e)%float = true -> (e =? 0)%float = false.
Proof.
  rewrite FloatAxioms.ltb_spec, FloatAxioms.eqb_spec.
  change (Prim2SF 0) with (S754_zero false).
  destruct (Prim2SF e) as [s | [|] | | [|] m x]; cbn;
    try discriminate; reflexivity.
Qed.

Lemma float_nonpos_not_pos (e : float) :
  (e <=? 0)%float = true -> (0 <? e)%float = false.
Proof.
  rewrite FloatAxioms.ltb_spec, FloatAxioms.leb_spec.
  change (Prim2SF 0) with (S754_zero false).
  destruct (Prim2SF e) as [s | [|] | | [|] m x]; cbn;
    try discriminate; reflexivity.
Qed.

Lemma truediv_int_float (a : Z) (e f : float) :
  float_of_int a = Ok f -> (0 <? e)%float = true ->
  truediv (Int a) (Float e) = Ok (f / e)%float.
Proof.
  intros Ha He. unfold truediv, as_float. rewrite Ha. cbn.
  rewrite (float_pos_nonzero e He). reflexivity.
Qed.

Lemma truediv_float_int (f g : float) (c : Z) :
  float_of_int c = Ok g -> (g =? 0)%float = false ->
  truediv (Float f) (Int c) = Ok (f / g)%float.
Proof.
  intros Hc Hg. unfold truediv, as_float. rewrite Hc. cbn.
  rewrite Hg. reflexivity.
Qed.

Lemma float_of_int_0 : float_of_int 0 = Ok 0%float.
Proof. reflexivity. Qed.

Lemma float_of_int_1 : float_of_int 1 = Ok 1%float.
Proof. reflexivity. Qed.

Lemma float_of_int_million : float_of_int 1000000 = Ok 1000000%float.
Proof. vm_compute. reflexivity. Qed.

(** ** Scenario A: the arrivals 0, 1, 2, 1, 4 *)

(** C1 as stated does not hold: the second arrival of 1 comes right after
    2, so line 143 counts it, and [out_of_order] is not 0. *)
Lemma scenario_A_out_of_order_is_not_zero :
  ~ (let st := observe_all [0; 1; 2; 1; 4] (initial_stats 0 0) in
     duplicates st = 1 /\ out_of_order st = 0 /\
     min_seq st = Some 0 /\ max_seq st = Some 4 /\
     size (sequence_numbers st) = 4%nat /\
     snapshot st = Ok (mk_snapshot 5 (Some 4) (Float 20)) /\
     (s ← snapshot st; missing_packets s) = Ok 1).
Proof.
  intros (_ & Hooo & _). vm_compute in Hooo. discriminate Hooo.
Qed.

(** C1 (amended): after the arrivals 0, 1, 2, 1, 4 on a fresh dictionary
    there is 1 duplicate and 1 out-of-order arrival, the bounds are 0 and
    4, four distinct numbers were received of 5 expected, 1 is missing
    and the loss is 20 percent. *)
Theorem scenario_A (t0 t1 : float) :
  let st := observe_all [0; 1; 2; 1; 4] (initial_stats t0 t1) in
  duplicates st = 1 /\ out_of_order st = 1 /\
  min_seq st = Some 0 /\ max_seq st = Some 4 /\
  size (sequence_numbers st) = 4%nat /\
  snapshot st = Ok (mk_snapshot 5 (Some 4) (Float 20)) /\
  (s ← snapshot st; missing_packets s) = Ok 1.
Proof.
  vm_compute. repeat split; reflexivity.
Qed.

(** ** Scenario B: a report before any sequence number was seen *)

Lemma tick_nothing_received (e : float) :
  (0 <? e)%float = true ->
  tick [] 0 0 e = (Ok (Float (0 / e), Float (0 / e)), [(0 / e, 0 / e)])%float.
Proof.
  intros He. unfold tick, rates. rewrite He. change (0 * 8) with 0.
  rewrite (truediv_int_float 0 e 0 float_of_int_0 He). reflexivity.
Qed.

Lemma average_one_sample (r : float * float) :
  exists a, average [r] = Ok a.
Proof.
  unfold average, sum. cbn [map len length Z.of_nat fold_left].
  rewrite !(truediv_float_int _ 1 1 float_of_int_1 eq_refl).
  eexists. reflexivity.
Qed.

Lemma final_summary_without_received (te : float) (st : stats)
    (s : snapshot_t) :
  packets_received st = 0 -> bytes_received st = 0 -> received s = None ->
  final_summary te st s = Raise UnboundLocalError.
Proof.
  intros Hp Hb Hr. unfold final_summary, missing_packets.
  rewrite Hp, Hb, Hr. change (0 * 8) with 0.
  destruct (0 <? te)%float eqn:Ht; [|reflexivity].
  rewrite (truediv_int_float 0 _ 0 float_of_int_0 Ht). cbn -[truediv].
  rewrite (truediv_float_int _ _ _ float_of_int_million eq_refl).
  reflexivity.
Qed.

Lemma snapshot_without_bounds (st : stats) :
  min_seq st = None \/ max_seq st = None ->
  snapshot st = Ok (mk_snapshot 0 None (Int 0)).
Proof.
  unfold snapshot. intros [H | H]; rewrite H; [reflexivity|].
  destruct (min_seq st); reflexivity.
Qed.

Lemma final_summary_needs_received (te : float) (st : stats)
    (s : snapshot_t) :
  received s = None -> exists e, final_summary te st s = Raise e.
Proof.
  intros Hr. unfold final_summary, missing_packets. rewrite Hr.
  destruct (0 <? te)%float; cbn -[truediv].
  - destruct (truediv (Int (packets_received st)) (Float te));
      cbn -[truediv]; [|eauto].
    destruct (truediv (Int (bytes_received st * 8)) (Float te)) as [r|];
      cbn -[truediv]; [|eauto].
    destruct (truediv (Float r) (Int 1000000)); cbn; eauto.
  - eauto.
Qed.

(** Not only on the fresh dictionary: as long as a bound is unset, for
    instance after nothing but malformed datagrams, the final summary
    never prints. *)
Lemma final_summary_without_bounds_raises (now : float) (st : stats) :
  min_seq st = None \/ max_seq st = None ->
  exists e, fst (print_stats true now st) = Raise e.
Proof.
  intros Hunset. unfold print_stats.
  destruct (tick _ _ _ _) as [[[pps bps]|e] w]; [|cbn; eauto].
  cbn -[average snapshot final_summary].
  destruct (average w); cbn -[snapshot final_summary]; [|eauto].
  rewrite snapshot_without_bounds by exact Hunset.
  cbn -[final_summary].
  destruct (final_summary_needs_received (now - start_time st)
              (set_one_sec_rates w st) (mk_snapshot 0 None (Int 0)) eq_refl)
    as [e He].
  rewrite He. cbn. eauto.
Qed.

(** C2: on the dictionary as created, the loss block yields expected 0
    and loss 0 and the periodic report prints a line with loss 0, but the
    final summary raises [UnboundLocalError]: [received] is bound only on
    the branch with both bounds set, and line 94 reads it. *)
Theorem empty_session_final_summary_raises (t0 t1 now : float) :
  snapshot (initial_stats t0 t1) = Ok (mk_snapshot 0 None (Int 0)) /\
  (exists pps mbps,
      fst (print_stats false now (initial_stats t0 t1))
      = Ok (Line pps mbps (Int 0))) /\
  fst (print_stats true now (initial_stats t0 t1)) = Raise UnboundLocalError.
Proof.
  split; [reflexivity|].
  unfold print_stats.
  cbn [initial_stats one_sec_rates packets_received last_packets
       bytes_received last_bytes last_report_time start_time].
  change (0 - 0) with 0.
  destruct (0 <? now - t1)%float eqn:He.
  - rewrite (tick_nothing_received _ He).
    destruct (average_one_sample (0 / (now - t1), 0 / (now - t1))%float)
      as [a Ha].
    rewrite Ha. split.
    + cbn -[truediv].
      rewrite (truediv_float_int _ _ _ float_of_int_million eq_refl).
      cbn. eauto.
    + cbn -[final_summary].
      rewrite final_summary_without_received; reflexivity.
  - unfold tick. rewrite He. split.
    + cbn. eauto.
    + cbn -[final_summary].
      rewrite final_summary_without_received; reflexivity.
Qed.

(** ** Scenario C: one tick *)

(** C5 as stated does not hold: 800000 bytes in one second are 6400000
    bits per second, not 800000. *)
Lemma tick_scenario_C_bps_is_not_800000 :
  fst (tick [] 100 800000 1) <> Ok (Float 100, Float 800000).
Proof.
  vm_compute. intros H. discriminate H.
Qed.

(** C5 (amended): tick(100, 800000, 1.0) returns 100 packets per second
    and 6400000 bits per second; a tick whose [delta_seconds] is zero or
    negative returns (0, 0) without raising and leaves the window alone. *)
Theorem tick_scenario_C :
  (forall w, fst (tick w 100 800000 1) = Ok (Float 100, Float 6400000)) /\
  (forall w dp db dt,
      (dt <=? 0)%float = true -> tick w dp db dt = (Ok (Int 0, Int 0), w)).
Proof.
  split.
  - intros w. vm_compute. reflexivity.
  - intros w dp db dt Hdt. unfold tick.
    rewrite (float_nonpos_not_pos dt Hdt). reflexivity.
Qed.

Lemma tick_scenario_C_witness :
  (-2 <=? 0)%float = true /\
  tick [(1, 8)%float] 100 800000 (-2) = (Ok (Int 0, Int 0), [(1, 8)%float]).
Proof.
  split; [reflexivity|].
  apply (proj2 tick_scenario_C). reflexivity.
Defined.

(** ** The wire format *)

Lemma digit_value_digit_byte (d : Z) :
  0 <= d < 10 -> digit_value (digit_byte d) = Some d.
Proof.
  intros Hd.
  assert (d = 0 \/ d = 1 \/ d = 2 \/ d = 3 \/ d = 4 \/
          d = 5 \/ d = 6 \/ d = 7 \/ d = 8 \/ d = 9) as Hcases by lia.
  repeat (destruct Hcases as [-> | Hcases]; [reflexivity|]).
  subst d. reflexivity.
Qed.

Lemma is_digit_digit_byte (d : Z) : 0 <= d < 10 -> is_digit (digit_byte d) = true.
Proof.
  intros Hd. unfold is_digit. rewrite (digit_value_digit_byte d Hd). reflexivity.
Qed.

(** A digit is none of the bytes the parser treats specially. *)
Lemma digit_is_plain (c : byte) :
  is_digit c = true ->
  is_space c = false /\ Byte.eqb c "+" = false /\ Byte.eqb c "-" = false /\
  Byte.eqb c "_" = false /\ Byte.eqb c ":" = false.
Proof.
  destruct c; intros H; try discriminate H; repeat split; reflexivity.
Qed.

Lemma digits_acc_step (n : Z) (acc : bytes) :
  digits_acc n acc
  = if Z_lt_dec n 10 then digit_byte n :: acc
    else digits_acc (n / 10) (digit_byte (n mod 10) :: acc).
Proof.
  funelim (digits_acc n acc); rewrite Heq; reflexivity.
Qed.

Lemma digits_acc_app (n : Z) (acc rest : bytes) :
  digits_acc n acc ++ rest = digits_acc n (acc ++ rest).
Proof.
  revert rest. funelim (digits_acc n acc); intros rest;
    rewrite (digits_acc_step n (acc ++ rest)), Heq.
  - reflexivity.
  - rewrite H. reflexivity.
Qed.

Lemma digits_acc_all_digits (n : Z) (acc : bytes) :
  0 <= n -> Forall (fun c => is_digit c = true) acc ->
  Forall (fun c => is_digit c = true) (digits_acc n acc).
Proof.
  funelim (digits_acc n acc); intros Hn Hacc.
  - constructor; [apply is_digit_digit_byte; lia | exact Hacc].
  - apply H.
    + apply Z.div_pos; lia.
    + constructor; [|exact Hacc].
      apply is_digit_digit_byte. apply Z.mod_pos_bound. lia.
Qed.

Lemma digits_acc_head (n : Z) (acc : bytes) :
  0 <= n -> exists c r, digits_acc n acc = c :: r /\ is_digit c = true.
Proof.
  funelim (digits_acc n acc); intros Hn.
  - eexists _, _. split; [reflexivity|]. apply is_digit_digit_byte. lia.
  - apply H. apply Z.div_pos; lia.
Qed.

(** Reading back the digits [str] wrote adds the number to the front of
    what follows. *)
Lemma scan_digits_digits_acc (n : Z) (rest : bytes) :
  0 <= n -> scan_digits 0 (digits_acc n rest) = scan_digits n rest.
Proof.
  funelim (digits_acc n rest); intros Hn.
  - cbn [scan_digits]. rewrite digit_value_digit_byte by lia.
    f_equal; lia.
  - rewrite H by (apply Z.div_pos; lia).
    cbn [scan_digits].
    rewrite digit_value_digit_byte by (apply Z.mod_pos_bound; lia).
    f_equal; pose proof (Z.div_mod n 10); lia.
Qed.

Lemma int_of_bytes_str_int (n : Z) : 0 <= n -> int_of_bytes (str_int n) = Ok n.
Proof.
  intros Hn. unfold str_int.
  destruct (n <? 0) eqn:Hneg; [lia|].
  destruct (digits_acc_head n [] Hn) as (c & r & Hcr & Hc).
  destruct (digit_is_plain c Hc) as (Hsp & Hplus & Hminus & _).
  unfold int_of_bytes. rewrite Hcr. cbn [lstrip].
  rewrite Hsp, Hplus, Hminus. unfold int_of_digits. rewrite Hc, <- Hcr.
  rewrite (scan_digits_digits_acc n [] Hn). reflexivity.
Qed.

Lemma bytes_split_first (sep : byte) (p r : bytes) :
  Forall (fun c => Byte.eqb c sep = false) p ->
  index0 (bytes_split sep (p ++ sep :: r)) = Ok p.
Proof.
  induction 1 as [|c p Hc Hp IH]; cbn [app bytes_split].
  - rewrite (@byte_dec_lb sep sep eq_refl). reflexivity.
  - rewrite Hc. destruct (bytes_split sep (p ++ sep :: r)) as [|h t].
    + discriminate IH.
    + cbn in IH |- *. congruence.
Qed.

Lemma decode_prefixed (n : Z) (filler : bytes) :
  0 <= n -> decode (str_int n ++ ":"%byte :: filler) = Ok n.
Proof.
  intros Hn. unfold decode.
  rewrite bytes_split_first.
  - cbn [mbind result_bind]. apply int_of_bytes_str_int, Hn.
  - unfold str_int. destruct (n <? 0) eqn:Hneg; [lia|].
    eapply Forall_impl; [apply digits_acc_all_digits; [exact Hn | constructor]|].
    intros c Hc. apply (digit_is_plain c Hc).
Qed.

Lemma len_app {A : Type} (l k : list A) : len (l ++ k) = len l + len k.
Proof. unfold len. rewrite length_app. lia. Qed.

Lemma len_bytes_repeat (c : byte) (k : Z) : len (bytes_repeat c k) = Z.max 0 k.
Proof. unfold len, bytes_repeat. rewrite repeat_length. lia. Qed.

(** When the prefix fits, the slice of line 59 cuts nothing off. *)
Lemma encode_fits (n size : Z) :
  len (str_int n ++ [":"%byte]) <= size ->
  encode n size
  = (str_int n ++ [":"%byte])
      ++ bytes_repeat "X" (size - len (str_int n ++ [":"%byte]) - 1).
Proof.
  intros Hfit. unfold encode, slice_to.
  set (prefix := str_int n ++ [":"%byte]) in *.
  assert (0 <= len prefix) by (unfold len; lia).
  destruct (size <? 0) eqn:Hneg; [lia|].
  apply firstn_all2.
  pose proof (len_app prefix (bytes_repeat "X" (size - len prefix - 1))) as Hl.
  rewrite len_bytes_repeat in Hl. unfold len in *. lia.
Qed.

(** The datagram is one byte short of [current_size] whenever there is
    room for filler. *)
Lemma encode_length_short (n size : Z) :
  len (str_int n ++ [":"%byte]) < size -> len (encode n size) = size - 1.
Proof.
  intros Hfit. rewrite encode_fits by lia.
  rewrite len_app, len_bytes_repeat. lia.
Qed.

(** C4: with the default packet size the first datagram has 1399 bytes,
    not 1400: the filler of line 56 is one byte too short. *)
Theorem encode_default_size_one_short : len (encode 0 1400) = 1399.
Proof.
  apply encode_length_short. vm_compute. reflexivity.
Qed.

(** ** [decode] against the grammar of int literals *)

Lemma decode_before_delimiter (data : bytes) :
  decode data = int_of_bytes (before_delimiter data).
Proof.
  unfold decode.
  assert (index0 (bytes_split ":" data) = Ok (before_delimiter data)) as ->.
  { induction data as [|c r IH]; cbn [bytes_split before_delimiter].
    - reflexivity.
    - destruct (Byte.eqb c ":"); [reflexivity|].
      destruct (bytes_split ":" r) as [|h t]; [discriminate IH|].
      cbn in IH |- *. congruence. }
  reflexivity.
Qed.

Lemma space_is_plain (c : byte) :
  is_space c = true ->
  digit_value c = None /\ Byte.eqb c "_" = false /\
  Byte.eqb c "+" = false /\ Byte.eqb c "-" = false.
Proof.
  destruct c; intros H; try discriminate H; repeat split; reflexivity.
Qed.

Lemma lstrip_decompose (s : bytes) :
  exists ws, s = ws ++ lstrip s /\ Forall (fun x => is_space x = true) ws.
Proof.
  induction s as [|c r (ws & Hr & Hws)]; cbn [lstrip].
  - exists []. split; [reflexivity | constructor].
  - destruct (is_space c) eqn:Hc.
    + exists (c :: ws). split; [cbn; congruence | constructor; assumption].
    + exists []. split; [reflexivity | constructor].
Qed.

Lemma lstrip_nil_spaces (s : bytes) :
  lstrip s = [] -> Forall (fun x => is_space x = true) s.
Proof.
  intros H. destruct (lstrip_decompose s) as (ws & Hs & Hws).
  rewrite H, app_nil_r in Hs. subst ws. exact Hws.
Qed.

Lemma lstrip_spaces (ws s : bytes) :
  Forall (fun x => is_space x = true) ws -> lstrip (ws ++ s) = lstrip s.
Proof.
  induction 1 as [|c ws Hc _ IH]; [reflexivity|].
  cbn [app lstrip]. rewrite Hc. exact IH.
Qed.

Lemma lstrip_all_spaces (ws : bytes) :
  Forall (fun x => is_space x = true) ws -> lstrip ws = [].
Proof.
  intros H. rewrite <- (app_nil_r ws). rewrite (lstrip_spaces ws [] H).
  reflexivity.
Qed.

Lemma is_digit_value (c : byte) :
  is_digit c = true -> exists d, digit_value c = Some d.
Proof.
  unfold is_digit. destruct (digit_value c) as [d|]; [eauto | discriminate].
Qed.

(** The loop accepts exactly a tail and computes its value. *)
Lemma scan_digits_complete (body ws : bytes) (acc : Z) :
  digit_tail body -> Forall (fun x => is_space x = true) ws ->
  scan_digits acc (body ++ ws) = Some (decimal_value acc body, ws).
Proof.
  intros Hbody Hws. revert acc.
  induction Hbody as [|c s Hc _ IH|c s Hc _ IH]; intros acc.
  - destruct Hws as [|x ws Hx Hws]; [reflexivity|].
    destruct (space_is_plain x Hx) as (Hd & Hu & _).
    cbn [app scan_digits decimal_value fold_left]. rewrite Hd, Hu. reflexivity.
  - destruct (is_digit_value c Hc) as [d Hd].
    cbn [app scan_digits decimal_value fold_left]. rewrite Hd. apply IH.
  - destruct (is_digit_value c Hc) as [d Hd].
    change (scan_digits acc (("_"%byte :: c :: s) ++ ws))
      with (if is_digit c then scan_digits acc (c :: s ++ ws) else None).
    change (decimal_value acc ("_"%byte :: c :: s))
      with (decimal_value acc (c :: s)).
    rewrite Hc. cbn [scan_digits decimal_value fold_left]. rewrite Hd.
    apply IH.
Qed.

Lemma scan_digits_sound (s : bytes) :
  forall acc v rest,
    scan_digits acc s = Some (v, rest) ->
    exists body,
      s = body ++ rest /\ digit_tail body /\ v = decimal_value acc body.
Proof.
  induction s as [s IH] using (induction_ltof1 _ (@length byte)).
  unfold ltof in IH. intros acc v rest Hscan.
  destruct s as [|c r]; cbn [scan_digits] in Hscan.
  - injection Hscan as <- <-. exists []. repeat split. constructor.
  - destruct (digit_value c) as [d|] eqn:Hd.
    + destruct (IH r ltac:(cbn; lia) _ _ _ Hscan) as (body & -> & Hbody & ->).
      exists (c :: body). split; [reflexivity|]. split.
      * constructor; [unfold is_digit; rewrite Hd; reflexivity | exact Hbody].
      * cbn [decimal_value fold_left]. rewrite Hd. reflexivity.
    + destruct (Byte.eqb c "_") eqn:Hu.
      * apply byte_dec_bl in Hu. subst c.
        destruct r as [|c' r']; [discriminate Hscan|].
        destruct (is_digit c') eqn:Hc'; [|discriminate Hscan].
        destruct (is_digit_value c' Hc') as [d' Hd'].
        cbn [scan_digits] in Hscan. rewrite Hd' in Hscan.
        destruct (IH r' ltac:(cbn; lia) _ _ _ Hscan)
          as (body & -> & Hbody & ->).
        exists ("_"%byte :: c' :: body). split; [reflexivity|]. split.
        -- constructor; assumption.
        -- cbn [decimal_value fold_left digit_value]. rewrite Hd'. reflexivity.
      * injection Hscan as <- <-. exists []. repeat split. constructor.
Qed.

Lemma int_of_digits_complete (neg : bool) (c : byte) (body ws : bytes) :
  is_digit c = true -> digit_tail body ->
  Forall (fun x => is_space x = true) ws ->
  int_of_digits neg ((c :: body) ++ ws)
  = Ok (if neg then - decimal_value 0 (c :: body)
        else decimal_value 0 (c :: body)).
Proof.
  intros Hc Hbody Hws. destruct (is_digit_value c Hc) as [d Hd].
  unfold int_of_digits. cbn [app scan_digits decimal_value fold_left].
  rewrite Hc, Hd.
  rewrite (scan_digits_complete body ws _ Hbody Hws).
  rewrite (lstrip_all_spaces ws Hws). reflexivity.
Qed.

Lemma int_of_digits_sound (neg : bool) (s : bytes) (n : Z) :
  int_of_digits neg s = Ok n ->
  exists c body ws,
    s = (c :: body) ++ ws /\ is_digit c = true /\ digit_tail body /\
    Forall (fun x => is_space x = true) ws /\
    n = (if neg then - decimal_value 0 (c :: body)
         else decimal_value 0 (c :: body)).
Proof.
  unfold int_of_digits. destruct s as [|c r]; intros H; [discriminate H|].
  destruct (is_digit c) eqn:Hc; [|discriminate H].
  destruct (scan_digits 0 (c :: r)) as [[v rest]|] eqn:Hscan;
    [|discriminate H].
  destruct (lstrip rest) eqn:Hrest; [|discriminate H].
  injection H as <-.
  destruct (is_digit_value c Hc) as [d Hd].
  cbn [scan_digits] in Hscan. rewrite Hd in Hscan.
  destruct (scan_digits_sound r _ _ _ Hscan) as (body & -> & Hb & ->).
  exists c, body, rest. split; [reflexivity|]. split; [exact Hc|].
  split; [exact Hb|]. split; [apply lstrip_nil_spaces, Hrest|].
  cbn [decimal_value fold_left]. rewrite Hd. reflexivity.
Qed.

Lemma int_of_bytes_complete (s : bytes) (n : Z) :
  int_literal s n -> int_of_bytes s = Ok n.
Proof.
  intros [ws1 ws2 body c Hws1 Hws2 Hc Hbody
         |ws1 ws2 body c Hws1 Hws2 Hc Hbody
         |ws1 ws2 body c Hws1 Hws2 Hc Hbody];
    unfold int_of_bytes; rewrite (lstrip_spaces ws1 _ Hws1).
  - destruct (digit_is_plain c Hc) as (Hsp & Hplus & Hminus & _).
    cbn [app lstrip]. rewrite Hsp, Hplus, Hminus.
    apply (int_of_digits_complete false c body ws2 Hc Hbody Hws2).
  - change (lstrip ("+"%byte :: (c :: body) ++ ws2))
      with ("+"%byte :: (c :: body) ++ ws2).
    change (Byte.eqb "+" "+") with true. cbn iota.
    apply (int_of_digits_complete false c body ws2 Hc Hbody Hws2).
  - change (lstrip ("-"%byte :: (c :: body) ++ ws2))
      with ("-"%byte :: (c :: body) ++ ws2).
    change (Byte.eqb "-" "+") with false. change (Byte.eqb "-" "-") with true.
    cbn iota.
    apply (int_of_digits_complete true c body ws2 Hc Hbody Hws2).
Qed.

Lemma int_of_bytes_sound (s : bytes) (n : Z) :
  int_of_bytes s = Ok n -> int_literal s n.
Proof.
  unfold int_of_bytes.
  destruct (lstrip_decompose s) as (ws1 & Hs & Hws1).
  destruct (lstrip s) as [|c r] eqn:Hs1; [intros H; discriminate H|].
  destruct (Byte.eqb c "+") eqn:Hplus;
    [|destruct (Byte.eqb c "-") eqn:Hminus]; intros H.
  - apply byte_dec_bl in Hplus. subst c.
    destruct (int_of_digits_sound _ _ _ H)
      as (c & body & ws2 & -> & Hc & Hb & Hws2 & ->).
    rewrite Hs. apply int_literal_plus; assumption.
  - apply byte_dec_bl in Hminus. subst c.
    destruct (int_of_digits_sound _ _ _ H)
      as (c & body & ws2 & -> & Hc & Hb & Hws2 & ->).
    rewrite Hs. apply int_literal_minus; assumption.
  - destruct (int_of_digits_sound _ _ _ H)
      as (c' & body & ws2 & Heq & Hc & Hb & Hws2 & ->).
    rewrite Hs, Heq. apply int_literal_unsigned; assumption.
Qed.

Lemma int_of_bytes_raises (s : bytes) (e : exn) :
  int_of_bytes s = Raise e -> e = ValueError.
Proof.
  unfold int_of_bytes, int_of_digits.
  repeat match goal with
         | |- context [match ?x with _ => _ end] => destruct x
         end; congruence.
Qed.

Lemma no_delimiter_in_42 : ":"%byte ∉ b "42".
Proof.
  intros Hin. apply list_elem_of_In in Hin. cbn in Hin.
  destruct Hin as [Hin | [Hin | []]]; discriminate Hin.
Qed.

Lemma minus_5_not_decimal_digits :
  ~ decimal_digits (before_delimiter (b "-5:XX")).
Proof.
  intros [_ Hall]. apply Forall_inv in Hall. discriminate Hall.
Qed.

(** C3 as stated does not hold: a datagram without the delimiter whose
    bytes are all digits decodes to their number, and a prefix with a
    minus sign decodes to a negative number. *)
Lemma decode_accepts_more_than_stated :
  ~ (decode (b "42") = Raise ValueError <-> spec_parse_error (b "42")) /\
  ~ (decode (b "-5:XX") = Raise ValueError <-> spec_parse_error (b "-5:XX")).
Proof.
  split; intros [_ H].
  - enough (decode (b "42") = Raise ValueError) as Hd
      by (vm_compute in Hd; discriminate Hd).
    apply H. left. exact no_delimiter_in_42.
  - enough (decode (b "-5:XX") = Raise ValueError) as Hd
      by (vm_compute in Hd; discriminate Hd).
    apply H. right. exact minus_5_not_decimal_digits.
Qed.

(** ** Malformed datagrams *)



(** ** Counting arrivals *)

Lemma observe_counts (seq_num : Z) (st : stats) :
  duplicates (observe seq_num st)
  + Z.of_nat (size (sequence_numbers (observe seq_num st)))
  = duplicates st + Z.of_nat (size (sequence_numbers st)) + 1.
Proof.
  unfold observe. cbn [duplicates sequence_numbers].
  case_bool_decide as Hseen; [lia|].
  rewrite size_union by set_solver. rewrite size_singleton. lia.
Qed.

Lemma observe_all_counts (seqs : list Z) (st : stats) :
  duplicates (observe_all seqs st)
  + Z.of_nat (size (sequence_numbers (observe_all seqs st)))
  = duplicates st + Z.of_nat (size (sequence_numbers st)) + len seqs.
Proof.
  revert st. induction seqs as [|seq_num seqs IH]; intros st.
  - unfold len. cbn. lia.
  - change (observe_all (seq_num :: seqs) st)
      with (observe_all seqs (observe seq_num st)).
    rewrite IH, observe_counts. unfold len. cbn [length]. lia.
Qed.

(** C10: after any run of [observe] calls on a fresh dictionary, the
    duplicates and the distinct numbers seen add up to the number of
    calls. *)
Theorem duplicates_plus_seen_is_calls (seqs : list Z) (t0 t1 : float) :
  duplicates (observe_all seqs (initial_stats t0 t1))
  + Z.of_nat (size (sequence_numbers (observe_all seqs (initial_stats t0 t1))))
  = len seqs.
Proof.
  rewrite observe_all_counts. cbn [initial_stats duplicates sequence_numbers].
  rewrite size_empty. lia.
Qed.

(** ** Invariants of the sequence statistics *)

Lemma bounds_inv_initial (t0 t1 : float) : bounds_inv (initial_stats t0 t1).
Proof. reflexivity. Qed.

Lemma bounds_inv_count_packet (data : bytes) (st : stats) :
  bounds_inv st -> bounds_inv (count_packet data st).
Proof. intros H. exact H. Qed.

Lemma bounds_inv_observe (seq_num : Z) (st : stats) :
  bounds_inv st -> bounds_inv (observe seq_num st).
Proof.
  unfold bounds_inv, observe. cbn [min_seq max_seq sequence_numbers].
  intros Hbounds.
  destruct (min_seq st) as [mn|], (max_seq st) as [mx|]; try contradiction.
  - destruct Hbounds as [Hle Hin].
    destruct (seq_num <? mn) eqn:Hmn, (mx <? seq_num) eqn:Hmx;
      (split; [lia|]); intros x Hx;
      case_bool_decide as Hseen;
      (try (apply Hin in Hseen));
      (try (apply elem_of_union in Hx as [Hx%elem_of_singleton | Hx]));
      (try (apply Hin in Hx)); lia.
  - split; [lia|]. intros x Hx. rewrite Hbounds in Hx.
    case_bool_decide as Hseen; [set_solver|].
    apply elem_of_union in Hx as [Hx%elem_of_singleton | Hx];
      [lia | set_solver].
Qed.

Lemma bounds_inv_observe_all (seqs : list Z) (st : stats) :
  bounds_inv st -> bounds_inv (observe_all seqs st).
Proof.
  revert st. induction seqs as [|seq_num seqs IH]; intros st Hinv.
  - exact Hinv.
  - apply (IH (observe seq_num st)), bounds_inv_observe, Hinv.
Qed.

Lemma tracker_inv_initial (t0 t1 : float) : tracker_inv (initial_stats t0 t1).
Proof.
  split; [cbn; lia | apply bounds_inv_initial].
Qed.

(** An [observe] may add a duplicate; the receive path has counted the
    packet before. *)
Lemma tracker_inv_receive (data : bytes) (st : stats) :
  tracker_inv st -> tracker_inv (receive data st).
Proof.
  intros [Hdup Hbounds]. unfold receive.
  destruct (decode data) as [seq_num|e].
  - split; [|apply bounds_inv_observe, Hbounds].
    unfold observe, count_packet. cbn [duplicates packets_received].
    case_bool_decide; lia.
  - split; [cbn [count_packet duplicates packets_received]; lia|].
    exact Hbounds.
Qed.

Lemma tracker_inv_receive_all (datagrams : list bytes) (st : stats) :
  tracker_inv st -> tracker_inv (receive_all datagrams st).
Proof.
  revert st. induction datagrams as [|data rest IH]; intros st Hinv.
  - exact Hinv.
  - apply (IH (receive data st)), tracker_inv_receive, Hinv.
Qed.

(** A set of integers inside [mn .. mx] has at most [mx - mn + 1]
    elements. *)
Lemma size_within_bounds (X : gset Z) (mn mx : Z) :
  mn <= mx -> (forall x, x ∈ X -> mn <= x <= mx) ->
  Z.of_nat (size X) <= mx - mn + 1.
Proof.
  intros Hle Hin.
  assert (X ⊆ list_to_set (seqZ mn (mx - mn + 1))) as Hsub.
  { intros x Hx. apply elem_of_list_to_set, elem_of_seqZ.
    specialize (Hin x Hx). lia. }
  apply subseteq_size in Hsub.
  rewrite size_list_to_set in Hsub by apply NoDup_seqZ.
  rewrite length_seqZ in Hsub. lia.
Qed.

Lemma bounds_inv_range (st : stats) : bounds_inv st -> range_covers_seen st.
Proof.
  unfold bounds_inv, range_covers_seen.
  destruct (min_seq st) as [mn|], (max_seq st) as [mx|]; try (intros; exact I).
  intros [Hle Hin]. pose proof (size_within_bounds _ mn mx Hle Hin). lia.
Qed.

(** C8: after any run of [observe] calls from the fresh dictionary the
    duplicates do not exceed the calls made and, once both bounds are
    set, the minimum is at most the maximum, the distinct numbers seen
    are at most [max_seq - min_seq + 1], and expected minus received is
    not negative; the same holds after any run of datagrams through the
    receive path, where the duplicates do not exceed
    [packets_received]. *)
Theorem tracker_invariants (t0 t1 : float) :
  (forall seqs : list Z,
      let st := observe_all seqs (initial_stats t0 t1) in
      duplicates st <= len seqs /\ range_covers_seen st) /\
  (forall datagrams : list bytes,
      let st := receive_all datagrams (initial_stats t0 t1) in
      duplicates st <= packets_received st /\ range_covers_seen st).
Proof.
  split.
  - intros seqs st. split.
    + pose proof (observe_all_counts seqs (initial_stats t0 t1)) as Hcount.
      fold st in Hcount. cbn [initial_stats duplicates sequence_numbers] in Hcount.
      rewrite size_empty in Hcount. lia.
    + apply bounds_inv_range, bounds_inv_observe_all, bounds_inv_initial.
  - intros datagrams st.
    destruct (tracker_inv_receive_all datagrams _ (tracker_inv_initial t0 t1))
      as [Hdup Hbounds].
    split; [fold st in Hdup; lia | apply bounds_inv_range, Hbounds].
Qed.

(** ** The rate window *)

Lemma push_rate_length (w : list (float * float)) (r : float * float) :
  (length w <= 10)%nat -> (length (push_rate w r) <= 10)%nat.
Proof.
  intros Hw. unfold push_rate, len.
  destruct (10 <? Z.of_nat (length (w ++ [r]))) eqn:Hfull.
  - destruct w as [|x w]; cbn in *; rewrite ?length_app in *; cbn; lia.
  - lia.
Qed.

Lemma tick_window (w : list (float * float)) (dp db : Z) (dt : float) :
  snd (tick w dp db dt) = w \/
  exists r, sampled (dp, db, dt) r /\
            fst (tick w dp db dt) = Ok (Float (fst r), Float (snd r)) /\
            snd (tick w dp db dt) = push_rate w r.
Proof.
  unfold tick, sampled.
  destruct (0 <? dt)%float; [|left; reflexivity].
  destruct (rates dp db dt) as [[pps bps]|e]; [|left; reflexivity].
  right. exists (pps, bps). repeat split; reflexivity.
Qed.

Lemma tick_length (w : list (float * float)) (dp db : Z) (dt : float) :
  (length w <= 10)%nat -> (length (snd (tick w dp db dt)) <= 10)%nat.
Proof.
  intros Hw. destruct (tick_window w dp db dt) as [-> | (r & _ & _ & ->)].
  - exact Hw.
  - apply push_rate_length, Hw.
Qed.

Lemma tick_all_length (ticks : list (Z * Z * float))
    (w : list (float * float)) :
  (length w <= 10)%nat -> (length (tick_all w ticks) <= 10)%nat.
Proof.
  revert w. induction ticks as [|[[dp db] dt] rest IH]; intros w Hw.
  - exact Hw.
  - cbn [tick_all]. pose proof (tick_length w dp db dt Hw) as Hw'.
    destruct (tick w dp db dt) as [[v|e] w']; cbn [snd] in Hw'.
    + apply IH, Hw'.
    + exact Hw'.
Qed.

Lemma tick_sampled (w : list (float * float)) (t : Z * Z * float)
    (r : float * float) :
  sampled t r ->
  let '(dp, db, dt) := t in
  tick w dp db dt = (Ok (Float (fst r), Float (snd r)), push_rate w r).
Proof.
  destruct t as [[dp db] dt], r as [pps bps]. intros [Hdt Hr].
  unfold tick. rewrite Hdt, Hr. reflexivity.
Qed.

(** Pushing onto a window and then keeping the last ten is keeping the
    last ten of the longer list. *)
Lemma push_rate_drop (w rest : list (float * float)) (r : float * float) :
  (length w <= 10)%nat ->
  drop (length (push_rate w r ++ rest) - 10) (push_rate w r ++ rest)
  = drop (length (w ++ r :: rest) - 10) (w ++ r :: rest).
Proof.
  intros Hw. unfold push_rate, len.
  destruct (10 <? Z.of_nat (length (w ++ [r]))) eqn:Hfull.
  - apply Z.ltb_lt in Hfull. rewrite length_app in Hfull.
    destruct w as [|x w]; cbn [length] in Hfull, Hw; [lia|].
    cbn [app tail length]. rewrite <- app_assoc. cbn [app].
    rewrite !length_app. cbn [length].
    replace (S (length w + S (length rest)) - 10)%nat
      with (S (length w + S (length rest) - 10))%nat by lia.
    reflexivity.
  - rewrite <- app_assoc. reflexivity.
Qed.

Lemma tick_all_sampled (ticks : list (Z * Z * float))
    (samples w : list (float * float)) :
  Forall2 sampled ticks samples -> (length w <= 10)%nat ->
  tick_all w ticks = drop (length (w ++ samples) - 10) (w ++ samples).
Proof.
  intros Hall. revert w.
  induction Hall as [|t r ticks samples Hr _ IH]; intros w Hw.
  - rewrite app_nil_r. cbn [tick_all].
    replace (length w - 10)%nat with 0%nat by lia. reflexivity.
  - pose proof (tick_sampled w t r Hr) as Htick.
    destruct t as [[dp db] dt]. cbn [tick_all]. rewrite Htick.
    rewrite (IH _ (push_rate_length w r Hw)).
    apply push_rate_drop, Hw.
Qed.

(** C9: the window never holds more than 10 samples; after a run of
    sampling ticks it holds the last ten samples in order, so after 11 of
    them the first is gone and the average is that of the other ten. *)
Theorem rate_window_bounded_fifo :
  (forall ticks w,
      (length w <= 10)%nat -> (length (tick_all w ticks) <= 10)%nat) /\
  (forall ticks samples,
      Forall2 sampled ticks samples ->
      tick_all [] ticks = drop (length samples - 10) samples) /\
  (forall ticks first rest,
      Forall2 sampled ticks (first :: rest) -> length rest = 10%nat ->
      tick_all [] ticks = rest /\
      average (tick_all [] ticks) = average rest).
Proof.
  split; [exact tick_all_length|].
  assert (forall ticks samples,
             Forall2 sampled ticks samples ->
             tick_all [] ticks = drop (length samples - 10) samples) as Hfifo.
  { intros ticks samples Hall.
    apply (tick_all_sampled ticks samples [] Hall). cbn. lia. }
  split; [exact Hfifo|].
  intros ticks first rest Hall Hlen.
  assert (tick_all [] ticks = rest) as ->.
  { rewrite (Hfifo _ _ Hall). cbn [length]. rewrite Hlen. reflexivity. }
  split; reflexivity.
Qed.

Lemma rate_window_bounded_fifo_witness :
  let ticks := map (fun i : Z => (i, i, 1%float)) (seqZ 1 11) in
  let rest := [(2, 16); (3, 24); (4, 32); (5, 40); (6, 48);
               (7, 56); (8, 64); (9, 72); (10, 80); (11, 88)]%float in
  Forall2 sampled ticks ((1, 8)%float :: rest) /\
  (length (tick_all [] ticks) <= 10)%nat /\
  tick_all [] ticks = rest /\
  average (tick_all [] ticks) = Ok (Float 6.5, Float 52).
Proof.
  intros ticks rest.
  assert (Forall2 sampled ticks ((1, 8)%float :: rest)) as Hall
    by (repeat constructor; vm_compute; reflexivity).
  split; [exact Hall|].
  split; [apply (proj1 rate_window_bounded_fifo); cbn; lia|].
  destruct (proj2 (proj2 rate_window_bounded_fifo) ticks _ rest Hall eq_refl)
    as [Hwin Havg].
  split; [exact Hwin|].
  rewrite Havg. vm_compute. reflexivity.
Defined.

(** * Further properties of the code *)

(** ** What the sequence statistics measure *)

Lemma observe_all_cons (seq_num : Z) (seqs : list Z) (st : stats) :
  observe_all (seq_num :: seqs) st = observe_all seqs (observe seq_num st).
Proof. reflexivity. Qed.

Lemma observe_seen (seq_num : Z) (st : stats) :
  sequence_numbers (observe seq_num st) = {[seq_num]} ∪ sequence_numbers st.
Proof.
  unfold observe. cbn [sequence_numbers].
  case_bool_decide as Hseen; [set_solver | reflexivity].
Qed.

Lemma observe_all_seen (seqs : list Z) (st : stats) :
  sequence_numbers (observe_all seqs st)
  = list_to_set seqs ∪ sequence_numbers st.
Proof.
  revert st. induction seqs as [|x seqs IH]; intros st.
  - cbn. set_solver.
  - rewrite observe_all_cons, IH, observe_seen. set_solver.
Qed.

Lemma fresh_seen (seqs : list Z) (t0 t1 : float) :
  sequence_numbers (observe_all seqs (initial_stats t0 t1)) = list_to_set seqs.
Proof.
  rewrite observe_all_seen. cbn [initial_stats sequence_numbers]. set_solver.
Qed.

(** X1: after any run of [observe] calls on a fresh dictionary the set
    holds exactly the numbers that arrived. *)
Theorem seen_exactly_the_arrivals (seqs : list Z) (t0 t1 : float) (x : Z) :
  x ∈ sequence_numbers (observe_all seqs (initial_stats t0 t1)) <-> x ∈ seqs.
Proof.
  rewrite fresh_seen. apply elem_of_list_to_set.
Qed.

Lemma seen_exactly_the_arrivals_witness :
  4 ∈ [0; 1; 2; 1; 4] /\
  4 ∈ sequence_numbers (observe_all [0; 1; 2; 1; 4] (initial_stats 0 0)).
Proof.
  assert (4 ∈ [0; 1; 2; 1; 4]) as Hin by (do 4 right; left).
  split; [exact Hin|].
  apply (proj2 (seen_exactly_the_arrivals [0; 1; 2; 1; 4] 0 0 4)), Hin.
Defined.

Lemma bounds_reached_observe (seq_num : Z) (st : stats) :
  bounds_reached st -> bounds_reached (observe seq_num st).
Proof.
  unfold bounds_reached. rewrite observe_seen.
  unfold observe. cbn [min_seq max_seq].
  destruct (min_seq st) as [mn|], (max_seq st) as [mx|]; try contradiction.
  - intros [Hmn Hmx].
    destruct (seq_num <? mn), (mx <? seq_num); set_solver.
  - intros _. set_solver.
Qed.

Lemma bounds_reached_observe_all (seqs : list Z) (st : stats) :
  bounds_reached st -> bounds_reached (observe_all seqs st).
Proof.
  revert st. induction seqs as [|x seqs IH]; intros st Hst.
  - exact Hst.
  - apply (IH (observe x st)), bounds_reached_observe, Hst.
Qed.

Lemma observe_sets_bounds (seq_num : Z) (st : stats) :
  is_Some (min_seq (observe seq_num st)) /\
  is_Some (max_seq (observe seq_num st)).
Proof.
  unfold observe. cbn [min_seq max_seq].
  destruct (min_seq st) as [mn|], (max_seq st) as [mx|];
    repeat match goal with |- context [if ?c then _ else _] => destruct c end;
    split; eauto.
Qed.

Lemma observe_all_sets_bounds (seqs : list Z) (st : stats) :
  seqs <> [] ->
  is_Some (min_seq (observe_all seqs st)) /\
  is_Some (max_seq (observe_all seqs st)).
Proof.
  revert st. induction seqs as [|x seqs IH]; intros st Hne; [congruence|].
  rewrite observe_all_cons. destruct seqs as [|y seqs].
  - apply observe_sets_bounds.
  - apply IH. discriminate.
Qed.

Lemma fresh_bounds (seqs : list Z) (t0 t1 : float) :
  seqs <> [] ->
  exists mn mx,
    min_seq (observe_all seqs (initial_stats t0 t1)) = Some mn /\
    max_seq (observe_all seqs (initial_stats t0 t1)) = Some mx /\
    mn ∈ seqs /\ mx ∈ seqs /\ forall x, x ∈ seqs -> mn <= x <= mx.
Proof.
  intros Hne.
  pose proof (bounds_inv_observe_all seqs _ (bounds_inv_initial t0 t1)) as Hinv.
  pose proof (bounds_reached_observe_all seqs (initial_stats t0 t1) I) as Hreach.
  destruct (observe_all_sets_bounds seqs (initial_stats t0 t1) Hne)
    as [[mn Hmn] [mx Hmx]].
  unfold bounds_inv in Hinv. unfold bounds_reached in Hreach.
  rewrite Hmn, Hmx in Hinv, Hreach.
  destruct Hinv as [_ Hin], Hreach as [Hrmn Hrmx].
  rewrite fresh_seen in Hin, Hrmn, Hrmx.
  exists mn, mx. split; [exact Hmn|]. split; [exact Hmx|].
  split; [apply elem_of_list_to_set in Hrmn; exact Hrmn|].
  split; [apply elem_of_list_to_set in Hrmx; exact Hrmx|].
  intros x Hx. apply Hin. apply elem_of_list_to_set. exact Hx.
Qed.

(** X2: once something has arrived, [min_seq] and [max_seq] are set, and
    they are the least and the greatest number that arrived. *)
Theorem bounds_are_least_and_greatest (seqs : list Z) (t0 t1 : float) :
  seqs <> [] ->
  exists mn mx,
    min_seq (observe_all seqs (initial_stats t0 t1)) = Some mn /\
    max_seq (observe_all seqs (initial_stats t0 t1)) = Some mx /\
    mn ∈ seqs /\ mx ∈ seqs /\ forall x, x ∈ seqs -> mn <= x <= mx.
Proof. apply fresh_bounds. Qed.

Lemma bounds_are_least_and_greatest_witness :
  [5; 3; 9] <> [] /\
  exists mn mx,
    min_seq (observe_all [5; 3; 9] (initial_stats 0 0)) = Some mn /\
    max_seq (observe_all [5; 3; 9] (initial_stats 0 0)) = Some mx /\
    mn ∈ [5; 3; 9] /\ mx ∈ [5; 3; 9] /\
    forall x, x ∈ [5; 3; 9] -> mn <= x <= mx.
Proof.
  split; [discriminate|].
  apply (bounds_are_least_and_greatest [5; 3; 9] 0 0). discriminate.
Defined.

Lemma observe_all_out_of_order (seqs : list Z) (st : stats) :
  out_of_order (observe_all seqs st)
  = out_of_order st
    + match last_seq_num st with
      | Some last => descents (last :: seqs)
      | None => descents seqs
      end.
Proof.
  revert st. induction seqs as [|x seqs IH]; intros st.
  - cbn. destruct (last_seq_num st); lia.
  - rewrite observe_all_cons, IH.
    unfold observe at 1 2. cbn [out_of_order last_seq_num].
    destruct (last_seq_num st) as [last|].
    + change (descents (last :: x :: seqs))
        with ((if x <? last then 1 else 0) + descents (x :: seqs)).
      destruct (x <? last); lia.
    + lia.
Qed.

(** X3: [out_of_order] counts the arrivals that are smaller than the
    arrival just before them, duplicates included, and nothing else. *)
Theorem out_of_order_counts_descents (seqs : list Z) (t0 t1 : float) :
  out_of_order (observe_all seqs (initial_stats t0 t1)) = descents seqs.
Proof.
  rewrite observe_all_out_of_order. cbn [initial_stats out_of_order last_seq_num].
  lia.
Qed.

(** The bounds are a function of the set seen. *)
Lemma fresh_bounds_unique (seqs seqs' : list Z) (t0 t1 : float) :
  (forall x, x ∈ seqs <-> x ∈ seqs') ->
  min_seq (observe_all seqs (initial_stats t0 t1))
  = min_seq (observe_all seqs' (initial_stats t0 t1)) /\
  max_seq (observe_all seqs (initial_stats t0 t1))
  = max_seq (observe_all seqs' (initial_stats t0 t1)).
Proof.
  intros Hsame. destruct seqs as [|a seqs].
  - destruct seqs' as [|a' seqs']; [split; reflexivity|].
    exfalso. apply (not_elem_of_nil a'), Hsame. left.
  - destruct seqs' as [|a' seqs'].
    { exfalso. apply (not_elem_of_nil a), Hsame. left. }
    destruct (fresh_bounds (a :: seqs) t0 t1 ltac:(discriminate))
      as (mn & mx & -> & -> & Hmn & Hmx & Hall).
    destruct (fresh_bounds (a' :: seqs') t0 t1 ltac:(discriminate))
      as (mn' & mx' & -> & -> & Hmn' & Hmx' & Hall').
    pose proof (Hall mn' (proj2 (Hsame mn') Hmn')).
    pose proof (Hall mx' (proj2 (Hsame mx') Hmx')).
    pose proof (Hall' mn (proj1 (Hsame mn) Hmn)).
    pose proof (Hall' mx (proj1 (Hsame mx) Hmx)).
    split; f_equal; lia.
Qed.

(** X4: the loss figures do not depend on the order of arrival: two runs
    that see the same numbers in a different order end with the same
    set, bounds, duplicate count and loss block. *)
Theorem loss_statistics_ignore_order (seqs seqs' : list Z) (t0 t1 : float) :
  Permutation seqs seqs' ->
  let st := observe_all seqs (initial_stats t0 t1) in
  let st' := observe_all seqs' (initial_stats t0 t1) in
  sequence_numbers st = sequence_numbers st' /\
  min_seq st = min_seq st' /\ max_seq st = max_seq st' /\
  duplicates st = duplicates st' /\ snapshot st = snapshot st'.
Proof.
  intros Hperm st st'.
  assert (forall x, x ∈ seqs <-> x ∈ seqs') as Hsame
    by (intros x; rewrite Hperm; reflexivity).
  assert (sequence_numbers st = sequence_numbers st') as Hset.
  { unfold st, st'. rewrite !fresh_seen. apply set_eq. intros x.
    rewrite !elem_of_list_to_set. apply Hsame. }
  destruct (fresh_bounds_unique seqs seqs' t0 t1 Hsame) as [Hmin Hmax].
  fold st st' in Hmin, Hmax.
  assert (duplicates st = duplicates st') as Hdup.
  { pose proof (observe_all_counts seqs (initial_stats t0 t1)) as H1.
    pose proof (observe_all_counts seqs' (initial_stats t0 t1)) as H2.
    fold st in H1. fold st' in H2. rewrite Hset in H1.
    unfold len in H1, H2. rewrite (Permutation_length Hperm) in H1. lia. }
  repeat split; try assumption.
  unfold snapshot. rewrite Hmin, Hmax, Hset. reflexivity.
Qed.

Lemma loss_statistics_ignore_order_witness :
  let st := observe_all [0; 1; 2; 1; 4] (initial_stats 0 0) in
  let st' := observe_all [4; 1; 1; 2; 0] (initial_stats 0 0) in
  Permutation [0; 1; 2; 1; 4] [4; 1; 1; 2; 0] /\
  duplicates st = duplicates st' /\ snapshot st = snapshot st'.
Proof.
  intros st st'.
  assert (Permutation [0; 1; 2; 1; 4] [4; 1; 1; 2; 0]) as Hperm.
  { apply (Permutation_trans (l' := [4; 0; 1; 2; 1])).
    - change [0; 1; 2; 1; 4] with ([0; 1; 2; 1] ++ [4]).
      symmetry. apply Permutation_cons_append.
    - constructor.
      apply (Permutation_trans (l' := [1; 2; 1; 0])).
      + change [1; 2; 1; 0] with ([1; 2; 1] ++ [0]).
        apply Permutation_cons_append.
      + constructor.
        change [2; 1; 0] with ([2] ++ [1; 0]).
        apply (Permutation_trans (l' := [1; 0] ++ [2])).
        * apply Permutation_app_comm.
        * constructor. change [0; 2] with ([0] ++ [2]).
          apply Permutation_app_comm. }
  split; [exact Hperm|].
  destruct (loss_statistics_ignore_order _ _ 0 0 Hperm)
    as (_ & _ & _ & Hdup & Hsnap).
  split; assumption.
Defined.

(** ** Arrivals in increasing order *)

Lemma increasing_tail (x : Z) (seqs : list Z) :
  increasing (x :: seqs) -> increasing seqs.
Proof.
  destruct seqs as [|y seqs]; [intros; exact I|]. intros [_ H]. exact H.
Qed.

Lemma increasing_head_least (x : Z) (seqs : list Z) :
  increasing (x :: seqs) -> forall y, y ∈ seqs -> x < y.
Proof.
  revert x. induction seqs as [|z seqs IH]; intros x Hinc y Hy.
  - apply not_elem_of_nil in Hy. contradiction.
  - destruct Hinc as [Hxz Hinc].
    apply elem_of_cons in Hy as [-> | Hy]; [exact Hxz|].
    specialize (IH z Hinc y Hy). lia.
Qed.

Lemma increasing_NoDup (seqs : list Z) : increasing seqs -> NoDup seqs.
Proof.
  induction seqs as [|x seqs IH]; intros Hinc; constructor.
  - intros Hx. pose proof (increasing_head_least x seqs Hinc x Hx). lia.
  - apply IH, (increasing_tail x), Hinc.
Qed.

Lemma increasing_descents (seqs : list Z) : increasing seqs -> descents seqs = 0.
Proof.
  induction seqs as [|x seqs IH]; intros Hinc; [reflexivity|].
  destruct seqs as [|y seqs]; [reflexivity|].
  destruct Hinc as [Hxy Hinc].
  change (descents (x :: y :: seqs))
    with ((if y <? x then 1 else 0) + descents (y :: seqs)).
  rewrite (IH Hinc). destruct (y <? x) eqn:Hlt; lia.
Qed.

Lemma increasing_last_greatest (seqs : list Z) (mx : Z) :
  increasing seqs -> last seqs = Some mx ->
  mx ∈ seqs /\ forall y, y ∈ seqs -> y <= mx.
Proof.
  induction seqs as [|x seqs IH]; intros Hinc Hlast; [discriminate Hlast|].
  destruct seqs as [|z seqs].
  - injection Hlast as <-. split; [left|].
    intros y Hy. apply list_elem_of_singleton in Hy. lia.
  - change (last (x :: z :: seqs)) with (last (z :: seqs)) in Hlast.
    destruct (IH (increasing_tail x _ Hinc) Hlast) as [Hin Hall].
    split; [right; exact Hin|].
    intros y Hy. apply elem_of_cons in Hy as [-> | Hy]; [|apply Hall, Hy].
    pose proof (increasing_head_least x _ Hinc mx Hin). lia.
Qed.

Lemma observe_all_increasing (first mx : Z) (rest : list Z) (t0 t1 : float) :
  increasing (first :: rest) ->
  mx ∈ first :: rest -> (forall y, y ∈ first :: rest -> y <= mx) ->
  let st := observe_all (first :: rest) (initial_stats t0 t1) in
  duplicates st = 0 /\ out_of_order st = 0 /\
  min_seq st = Some first /\ max_seq st = Some mx /\
  Z.of_nat (size (sequence_numbers st)) = len (first :: rest).
Proof.
  intros Hinc Hlast_in Hgreatest st.
  assert (Z.of_nat (size (sequence_numbers st)) = len (first :: rest)) as Hsize.
  { unfold st. rewrite fresh_seen.
    rewrite size_list_to_set by apply increasing_NoDup, Hinc. reflexivity. }
  pose proof (observe_all_counts (first :: rest) (initial_stats t0 t1)) as Hcount.
  fold st in Hcount. cbn [initial_stats duplicates sequence_numbers] in Hcount.
  rewrite size_empty in Hcount.
  split; [lia|]. split.
  { unfold st. rewrite observe_all_out_of_order.
    cbn [initial_stats out_of_order last_seq_num].
    rewrite (increasing_descents _ Hinc). reflexivity. }
  destruct (fresh_bounds (first :: rest) t0 t1 ltac:(discriminate))
    as (mn & mx' & Hmn & Hmx & Hmn_in & Hmx_in & Hall).
  fold st in Hmn, Hmx.
  split; [|split; [|exact Hsize]].
  - rewrite Hmn. f_equal.
    apply elem_of_cons in Hmn_in as [-> | Hin]; [reflexivity|].
    pose proof (increasing_head_least first rest Hinc mn Hin).
    pose proof (Hall first ltac:(left)). lia.
  - rewrite Hmx. f_equal.
    pose proof (Hgreatest mx' Hmx_in). pose proof (Hall mx Hlast_in). lia.
Qed.

(** X5: when the numbers arrive in strictly increasing order, with or
    without gaps, nothing is counted as duplicate or out of order, the
    bounds are the first and the last arrival, and every arrival is a
    new element of the set, so expected minus received is the number of
    sequence numbers skipped. *)
Theorem increasing_arrivals (first mx : Z) (rest : list Z) (t0 t1 : float) :
  increasing (first :: rest) -> last (first :: rest) = Some mx ->
  let st := observe_all (first :: rest) (initial_stats t0 t1) in
  duplicates st = 0 /\ out_of_order st = 0 /\
  min_seq st = Some first /\ max_seq st = Some mx /\
  Z.of_nat (size (sequence_numbers st)) = len (first :: rest).
Proof.
  intros Hinc Hlast.
  destruct (increasing_last_greatest _ mx Hinc Hlast) as [Hin Hgreatest].
  apply observe_all_increasing; assumption.
Qed.

Lemma increasing_arrivals_witness :
  let st := observe_all [3; 4; 7; 9] (initial_stats 0 0) in
  increasing [3; 4; 7; 9] /\ last [3; 4; 7; 9] = Some 9 /\
  duplicates st = 0 /\ out_of_order st = 0 /\
  min_seq st = Some 3 /\ max_seq st = Some 9 /\
  Z.of_nat (size (sequence_numbers st)) = 4.
Proof.
  intros st.
  assert (increasing [3; 4; 7; 9]) as Hinc by (cbn; lia).
  split; [exact Hinc|]. split; [reflexivity|].
  apply (increasing_arrivals 3 9 [4; 7; 9] 0 0 Hinc eq_refl).
Defined.

(** ** Runs of datagrams *)


Lemma receive_all_cons (data : bytes) (datagrams : list bytes) (st : stats) :
  receive_all (data :: datagrams) st = receive_all datagrams (receive data st).
Proof. reflexivity. Qed.



Lemma observe_keeps_counters (seq_num : Z) (st : stats) :
  packets_received (observe seq_num st) = packets_received st /\
  bytes_received (observe seq_num st) = bytes_received st.
Proof. split; reflexivity. Qed.

Lemma receive_counters (data : bytes) (st : stats) :
  packets_received (receive data st) = packets_received st + 1 /\
  bytes_received (receive data st) = bytes_received st + len data.
Proof.
  unfold receive. destruct (decode data); split; reflexivity.
Qed.

Lemma receive_all_counters (datagrams : list bytes) (st : stats) :
  packets_received (receive_all datagrams st)
  = packets_received st + len datagrams /\
  bytes_received (receive_all datagrams st)
  = bytes_received st + total_len datagrams.
Proof.
  revert st. induction datagrams as [|data rest IH]; intros st.
  - unfold len. cbn. lia.
  - rewrite receive_all_cons.
    destruct (IH (receive data st)) as [Hp Hb].
    destruct (receive_counters data st) as [Hp1 Hb1].
    rewrite Hp, Hb, Hp1, Hb1. unfold len, total_len. cbn [length foldr].
    fold (total_len rest). unfold len. lia.
Qed.

(** X7: the raw totals count every datagram, whether it parses or not:
    after a run, [packets_received] has grown by the number of datagrams
    and [bytes_received] by the sum of their lengths. *)
Theorem raw_totals_count_every_datagram (datagrams : list bytes)
    (st : stats) :
  packets_received (receive_all datagrams st)
  = packets_received st + len datagrams /\
  bytes_received (receive_all datagrams st)
  = bytes_received st + total_len datagrams.
Proof. apply receive_all_counters. Qed.

(** ** Reports *)

Lemma print_stats_state (final : bool) (now : float) (st : stats) :
  exists w,
    (length (one_sec_rates st) <= 10 -> length w <= 10)%nat /\
    (snd (print_stats final now st) = set_one_sec_rates w st \/
     snd (print_stats final now st)
     = mark_reported now (set_one_sec_rates w st)).
Proof.
  unfold print_stats.
  pose proof (tick_length (one_sec_rates st)
                (packets_received st - last_packets st)
                (bytes_received st - last_bytes st)
                (now - last_report_time st)) as Hlen.
  destruct (tick _ _ _ _) as [rates w]. cbn [snd] in Hlen.
  exists w. split; [exact Hlen|].
  match goal with
  | |- context [match ?p with Ok _ => _ | Raise _ => _ end] => destruct p
  end; [right | left]; reflexivity.
Qed.

(** X8: a report, periodic or final, printed or raised, never touches
    the sequence statistics, the raw totals or the start time; it only
    moves the rate window and the report baselines. *)
Theorem print_stats_is_read_only (final : bool) (now : float) (st : stats) :
  let st' := snd (print_stats final now st) in
  sequence_stats st' = sequence_stats st /\
  packets_received st' = packets_received st /\
  bytes_received st' = bytes_received st /\
  start_time st' = start_time st /\
  missing st' = missing st.
Proof.
  intros st'. destruct (print_stats_state final now st) as (w & _ & [H | H]);
    unfold st'; rewrite H; repeat split; reflexivity.
Qed.

Lemma float_zero_div_pos (e : float) :
  (0 <? e)%float = true -> (0 / e)%float = 0%float.
Proof.
  intros He. rewrite <- (FloatAxioms.SF2Prim_Prim2SF (0 / e)).
  rewrite FloatAxioms.div_spec. rewrite FloatAxioms.ltb_spec in He.
  change (Prim2SF 0) with (S754_zero false) in *.
  destruct (Prim2SF e) as [s | [|] | | [|] m x]; cbn in He |- *;
    try discriminate He; reflexivity.
Qed.

Lemma tick_idle (w : list (float * float)) (e : float) :
  (0 <? e)%float = true ->
  tick w 0 0 e = (Ok (Float 0, Float 0), push_rate w (0, 0)%float).
Proof.
  intros He. unfold tick, rates. rewrite He. change (0 * 8) with 0.
  rewrite (truediv_int_float 0 e 0 float_of_int_0 He).
  rewrite (float_zero_div_pos e He). reflexivity.
Qed.

Lemma float_of_small_int (n : Z) :
  1 <= n <= 10 ->
  exists g, float_of_int n = Ok g /\ (g =? 0)%float = false.
Proof.
  intros Hn.
  assert (n = 1 \/ n = 2 \/ n = 3 \/ n = 4 \/ n = 5 \/
          n = 6 \/ n = 7 \/ n = 8 \/ n = 9 \/ n = 10) as Hcases by lia.
  repeat (destruct Hcases as [-> | Hcases];
          [eexists; split; vm_compute; reflexivity|]).
  subst n. eexists; split; vm_compute; reflexivity.
Qed.

(** With at most ten samples the averages of lines 67-72 never raise. *)
Lemma average_returns (w : list (float * float)) :
  (length w <= 10)%nat -> exists a, average w = Ok a.
Proof.
  intros Hlen. destruct w as [|r w]; [eexists; reflexivity|].
  unfold average.
  destruct (float_of_small_int (len (r :: w))) as (g & Hg & Hnz).
  { unfold len. cbn [length] in *. lia. }
  unfold sum. cbn [map].
  rewrite !(truediv_float_int _ g _ Hg Hnz). eexists. reflexivity.
Qed.

Lemma push_rate_not_nil (w : list (float * float)) (r : float * float) :
  push_rate w r <> [].
Proof.
  unfold push_rate, len.
  destruct (10 <? Z.of_nat (length (w ++ [r]))) eqn:Hfull.
  - apply Z.ltb_lt in Hfull. rewrite length_app in Hfull. cbn in Hfull.
    destruct w as [|x [|y w]]; cbn in *; try lia; discriminate.
  - destruct w; discriminate.
Qed.

(** X9: two periodic reports with no datagram in between: if the first
    printed its line and the clock has moved on, the second prints
    exactly 0 packets per second and 0 Mbps, with the same loss figure. *)
Theorem second_report_of_idle_interval (now now' : float) (st st' : stats)
    (pps : num) (mbps : float) (loss : num) :
  (length (one_sec_rates st) <= 10)%nat ->
  print_stats false now st = (Ok (Line pps mbps loss), st') ->
  (0 <? now' - now)%float = true ->
  fst (print_stats false now' st') = Ok (Line (Float 0) 0 loss).
Proof.
  intros Hlen Hfirst Hclock. unfold print_stats in Hfirst.
  pose proof (tick_length (one_sec_rates st)
                (packets_received st - last_packets st)
                (bytes_received st - last_bytes st)
                (now - last_report_time st) Hlen) as Hw.
  destruct (tick _ _ _ _) as [[[pps0 bps0]|e] w]; [|discriminate Hfirst].
  cbn [snd] in Hw. cbn -[average snapshot truediv] in Hfirst.
  destruct (average w) as [a|e]; [|discriminate Hfirst].
  cbn -[snapshot truediv] in Hfirst.
  destruct (snapshot (set_one_sec_rates w st)) as [s|e] eqn:Hsnap;
    [|discriminate Hfirst].
  cbn -[truediv] in Hfirst.
  destruct (truediv bps0 (Int 1000000)) as [m|e]; [|discriminate Hfirst].
  cbn in Hfirst. injection Hfirst as <- <- <- <-.
  unfold print_stats.
  cbn [mark_reported set_one_sec_rates one_sec_rates packets_received
       last_packets bytes_received last_bytes last_report_time].
  rewrite !Z.sub_diag. rewrite (tick_idle w _ Hclock).
  destruct (average_returns (push_rate w (0, 0)%float)
              (push_rate_length w _ Hw)) as [a' Ha'].
  cbn -[average snapshot truediv]. rewrite Ha'.
  cbn -[snapshot truediv].
  change (snapshot _) with (snapshot (set_one_sec_rates w st)).
  rewrite Hsnap. cbn -[truediv].
  rewrite (truediv_float_int 0 _ _ float_of_int_million eq_refl).
  reflexivity.
Qed.

Lemma second_report_of_idle_interval_witness :
  let st := receive (b "0:XX") (initial_stats 0 0) in
  fst (print_stats false 3 (snd (print_stats false 2 st)))
  = Ok (Line (Float 0) 0 (Float 0)).
Proof.
  intros st.
  assert (exists pps mbps st',
             print_stats false 2 st = (Ok (Line pps mbps (Float 0)), st'))
    as (pps & mbps & st' & Hfirst) by (vm_compute; eauto).
  rewrite Hfirst. cbn [snd].
  apply (second_report_of_idle_interval 2 3 st st' pps mbps (Float 0));
    [cbn; lia | exact Hfirst | reflexivity].
Defined.

(** ** The main loop *)

Lemma receive_keeps_report_fields (data : bytes) (st : stats) :
  one_sec_rates (receive data st) = one_sec_rates st /\
  last_packets (receive data st) = last_packets st /\
  last_bytes (receive data st) = last_bytes st /\
  last_report_time (receive data st) = last_report_time st.
Proof.
  unfold receive. destruct (decode data); repeat split; reflexivity.
Qed.

Lemma loop_inv_initial (t0 t1 : float) : loop_inv (initial_stats t0 t1).
Proof.
  split; [apply tracker_inv_initial|]. cbn. lia.
Qed.

Lemma loop_inv_receive (data : bytes) (st : stats) :
  loop_inv st -> loop_inv (receive data st).
Proof.
  intros (Htr & Hw & Hp & Hb).
  destruct (receive_keeps_report_fields data st) as (Ew & Ep & Eb & _).
  destruct (receive_counters data st) as [Cp Cb].
  split; [apply tracker_inv_receive, Htr|].
  rewrite Ew, Ep, Eb, Cp, Cb. unfold len. lia.
Qed.

Lemma loop_inv_print_stats (final : bool) (now : float) (st : stats) :
  loop_inv st -> loop_inv (snd (print_stats final now st)).
Proof.
  intros (Htr & Hw & Hp & Hb).
  destruct (print_stats_state final now st) as (w & Hlen & [-> | ->]).
  - split; [exact Htr|]. split; [exact (Hlen Hw)|]. split; assumption.
  - split; [exact Htr|]. split; [exact (Hlen Hw)|].
    cbn [mark_reported set_one_sec_rates last_packets packets_received
         last_bytes bytes_received]. lia.
Qed.

Lemma loop_inv_iteration (a : arrival) (now now' : float) (st : stats) :
  loop_inv st -> loop_inv (snd (loop_iteration a now now' st)).
Proof.
  intros Hinv. unfold loop_iteration.
  set (st1 := match a with Datagram data => receive data st | Timeout => st end).
  assert (loop_inv st1) as Hinv1
    by (unfold st1; destruct a; [apply loop_inv_receive|]; exact Hinv).
  destruct (1 <=? now - last_report_time st1)%float; [|exact Hinv1].
  pose proof (loop_inv_print_stats false now' st1 Hinv1) as Hp.
  destruct (print_stats false now' st1) as [[r|e] st2]; exact Hp.
Qed.

Lemma loop_inv_main_loop (steps : list (arrival * float * float))
    (st : stats) :
  loop_inv st -> loop_inv (snd (main_loop steps st)).
Proof.
  revert st. induction steps as [|[[a now] now'] rest IH]; intros st Hinv.
  - exact Hinv.
  - cbn [main_loop].
    pose proof (loop_inv_iteration a now now' st Hinv) as Hstep.
    destruct (loop_iteration a now now' st) as [[r|e] st1]; cbn [snd] in Hstep.
    + specialize (IH st1 Hstep).
      destruct (main_loop rest st1) as [[out res] st2]. exact IH.
    + exact Hstep.
Qed.

(** X10: whatever arrives and whenever the reports fire, the main loop
    keeps the invariants of the statistics: duplicates within the
    packets received, the seen numbers within the bounds (so expected
    minus received is never negative), at most ten samples in the rate
    window, and report baselines that never run ahead of the totals, so
    a report never sees a negative packet or byte delta. *)
Theorem main_loop_keeps_invariants (steps : list (arrival * float * float))
    (t0 t1 : float) :
  let st := snd (main_loop steps (initial_stats t0 t1)) in
  duplicates st <= packets_received st /\
  range_covers_seen st /\
  (length (one_sec_rates st) <= 10)%nat /\
  0 <= packets_received st - last_packets st /\
  0 <= bytes_received st - last_bytes st.
Proof.
  intros st.
  destruct (loop_inv_main_loop steps _ (loop_inv_initial t0 t1))
    as ((Hdup & Hbounds) & Hw & Hp & Hb).
  fold st in Hdup, Hbounds, Hw, Hp, Hb.
  split; [lia|]. split; [apply bounds_inv_range, Hbounds|].
  split; [exact Hw|]. lia.
Qed.

(** ** The final summary *)

Lemma snapshot_fields (st : stats) (s : snapshot_t) :
  snapshot st = Ok s ->
  match received s with
  | Some r =>
      exists mn mx,
        min_seq st = Some mn /\ max_seq st = Some mx /\
        expected s = mx - mn + 1 /\
        r = Z.of_nat (size (sequence_numbers st))
  | None => expected s = 0
  end.
Proof.
  unfold snapshot.
  destruct (min_seq st) as [mn|], (max_seq st) as [mx|];
    try (intros H; injection H as <-; reflexivity).
  destruct (0 <? mx - mn + 1).
  - destruct (truediv _ _) as [loss|e]; [|discriminate].
    intros H. injection H as <-. cbn. exists mn, mx. repeat split; reflexivity.
  - intros H. injection H as <-. cbn. exists mn, mx. repeat split; reflexivity.
Qed.

Lemma final_summary_fields (te : float) (st : stats) (s : snapshot_t)
    (r : summary) :
  final_summary te st s = Ok r ->
  missing_packets s = Ok (missing_count r) /\
  expected_packets r = expected s /\
  sequence_range r = (min_seq st, max_seq st) /\
  duplicate_packets r = duplicates st /\
  out_of_order_packets r = out_of_order st /\
  total_packets r = packets_received st /\
  total_bytes r = bytes_received st.
Proof.
  unfold final_summary.
  match goal with
  | |- context [mbind _ ?c] => destruct c as [rate|e]
  end; [|discriminate].
  cbn -[history missing_packets truediv].
  match goal with
  | |- context [mbind _ ?c] => destruct c as [bits|e]
  end; [|discriminate].
  cbn -[history missing_packets].
  destruct (missing_packets s) as [lost|e]; [|discriminate].
  cbn -[history].
  destruct (history _ _ _ _) as [hist|e]; [|discriminate].
  intros H. injection H as <-. repeat split; reflexivity.
Qed.

(** X11: when the final summary prints after a run of datagrams, its
    missing count is exactly expected minus the distinct numbers seen
    and is not negative (the clamp of line 94 never applies), expected
    is [max_seq - min_seq + 1], and the sequence counters and raw
    totals shown are those of the dictionary. *)
Theorem final_summary_figures (datagrams : list bytes) (t0 t1 now : float)
    (r : summary) (st' : stats) :
  let st := receive_all datagrams (initial_stats t0 t1) in
  print_stats true now st = (Ok (Final r), st') ->
  exists mn mx,
    sequence_range r = (Some mn, Some mx) /\
    expected_packets r = mx - mn + 1 /\
    missing_count r
    = expected_packets r - Z.of_nat (size (sequence_numbers st)) /\
    0 <= missing_count r /\
    duplicate_packets r = duplicates st /\
    out_of_order_packets r = out_of_order st /\
    total_packets r = len datagrams /\
    total_bytes r = total_len datagrams.
Proof.
  intros st Hprint.
  pose proof (tracker_inv_receive_all datagrams _ (tracker_inv_initial t0 t1))
    as [_ Hbounds].
  fold st in Hbounds. apply bounds_inv_range in Hbounds.
  destruct (receive_all_counters datagrams (initial_stats t0 t1)) as [Hp Hb].
  fold st in Hp, Hb. cbn [initial_stats packets_received bytes_received] in Hp, Hb.
  unfold print_stats in Hprint.
  destruct (tick _ _ _ _) as [[[pps bps]|e] w]; [|discriminate Hprint].
  cbn -[average snapshot final_summary] in Hprint.
  destruct (average w) as [a|e]; [|discriminate Hprint].
  cbn -[snapshot final_summary] in Hprint.
  destruct (snapshot (set_one_sec_rates w st)) as [s|e] eqn:Hsnap;
    [|discriminate Hprint].
  cbn -[final_summary] in Hprint.
  destruct (final_summary _ _ s) as [r'|e] eqn:Hfinal; [|discriminate Hprint].
  cbn in Hprint. injection Hprint as -> _.
  apply final_summary_fields in Hfinal
    as (Hmiss & Hexp & Hrange & Hdup & Hooo & Htp & Htb).
  apply snapshot_fields in Hsnap. unfold missing_packets in Hmiss.
  destruct (received s) as [rcv|]; [|discriminate Hmiss].
  destruct Hsnap as (mn & mx & Hmn & Hmx & Hexpected & Hrcv).
  cbn [set_one_sec_rates min_seq max_seq sequence_numbers duplicates
       out_of_order packets_received bytes_received] in *.
  injection Hmiss as Hmiss.
  unfold range_covers_seen in Hbounds. rewrite Hmn, Hmx in Hbounds.
  exists mn, mx. rewrite Hrange, Hmn, Hmx, Hexp, Hdup, Hooo, Htp, Htb.
  split; [reflexivity|]. split; [exact Hexpected|].
  destruct (rcv <? expected s) eqn:Hlt;
    repeat split; try reflexivity; try lia.
Qed.

Lemma final_summary_figures_witness :
  let datagrams := [b "0:X"; b "1:X"; b "junk"; b "1:X"; b "4:X"] in
  let st := receive_all datagrams (initial_stats 0 0) in
  exists r st',
    print_stats true 2 st = (Ok (Final r), st') /\
    sequence_range r = (Some 0, Some 4) /\
    expected_packets r = 5 /\ missing_count r = 2 /\
    total_packets r = 5 /\ total_bytes r = 16.
Proof.
  intros datagrams st.
  destruct (print_stats true 2 st) as [[[pps mbps loss|r]|e] st'] eqn:Hprint;
    try (vm_compute in Hprint; discriminate Hprint).
  exists r, st'. split; [reflexivity|].
  destruct (final_summary_figures datagrams 0 0 2 r st' Hprint)
    as (mn & mx & Hrange & Hexp & Hmiss & _ & _ & _ & Htp & Htb).
  assert (sequence_range r = (Some 0, Some 4)) as Hr.
  { vm_compute in Hprint. injection Hprint as <- _. reflexivity. }
  rewrite Hr in Hrange. injection Hrange as <- <-.
  split; [exact Hr|]. split; [exact Hexp|].
  split; [rewrite Hmiss, Hexp; vm_compute; reflexivity|].
  split; [exact Htp | exact Htb].
Defined.

(** ** The datagram for every packet size *)

Lemma len_nonneg {A : Type} (l : list A) : 0 <= len l.
Proof. unfold len. lia. Qed.

Lemma len_firstn {A : Type} (l : list A) (k : Z) :
  len (firstn (Z.to_nat k) l) = Z.min (Z.max 0 k) (len l).
Proof. unfold len. rewrite length_firstn. lia. Qed.

(** The length of the datagram the model without limits builds: a size
    up to the length of the prefix ["<n>:"] cuts the prefix to that
    size, a larger size gives one byte less than asked for, and a
    negative size drops that many bytes from the end of the prefix. *)
Lemma len_encode (n size : Z) :
  let prefix := str_int n ++ [":"%byte] in
  len (encode n size)
  = if size <? 0 then Z.max 0 (len prefix + size)
    else if size <=? len prefix then size
    else size - 1.
Proof.
  intros prefix. unfold encode, slice_to. fold prefix.
  pose proof (len_nonneg prefix) as Hp.
  destruct (size <? 0) eqn:Hneg.
  - apply Z.ltb_lt in Hneg. rewrite len_firstn, len_app, len_bytes_repeat. lia.
  - apply Z.ltb_ge in Hneg. rewrite len_firstn, len_app, len_bytes_repeat.
    destruct (size <=? len prefix) eqn:Hle;
      [apply Z.leb_le in Hle | apply Z.leb_gt in Hle]; lia.
Qed.


Lemma digits_acc_snoc (n : Z) :
  10 <= n ->
  digits_acc n [] = digits_acc (n / 10) [] ++ [digit_byte (n mod 10)].
Proof.
  intros Hn. rewrite (digits_acc_step n []).
  destruct (Z_lt_dec n 10); [lia|].
  rewrite digits_acc_app. reflexivity.
Qed.

Lemma digits_acc_small (n : Z) : n < 10 -> digits_acc n [] = [digit_byte n].
Proof.
  intros Hn. rewrite (digits_acc_step n []).
  destruct (Z_lt_dec n 10); [reflexivity | lia].
Qed.






(** ** How a report can fail *)

Lemma float_of_int_raises (z : Z) (x : exn) :
  float_of_int z = Raise x -> x = OverflowError.
Proof.
  unfold float_of_int. destruct (is_infinity _); congruence.
Qed.

Lemma int_truediv_raises (a c : Z) (x : exn) :
  c <> 0 -> int_truediv a c = Raise x -> x = OverflowError.
Proof.
  intros Hc. unfold int_truediv.
  destruct (c =? 0) eqn:Hz; [apply Z.eqb_eq in Hz; contradiction|].
  destruct (is_infinity _); congruence.
Qed.

Lemma truediv_int_float_raises (a : Z) (e : float) (x : exn) :
  (e =? 0)%float = false ->
  truediv (Int a) (Float e) = Raise x -> x = OverflowError.
Proof.
  intros He. unfold truediv, as_float.
  destruct (float_of_int a) as [f|y] eqn:Ha; cbn.
  - rewrite He. discriminate.
  - intros H. injection H as <-. apply (float_of_int_raises a y Ha).
Qed.

Lemma truediv_million (x : num) :
  x = Int 0 \/ (exists f, x = Float f) ->
  exists m, truediv x (Int 1000000) = Ok m.
Proof.
  intros [-> | [f ->]].
  - eexists. vm_compute. reflexivity.
  - rewrite (truediv_float_int f _ _ float_of_int_million eq_refl). eauto.
Qed.

Lemma rates_raises (dp db : Z) (e : float) (x : exn) :
  (e =? 0)%float = false -> rates dp db e = Raise x -> x = OverflowError.
Proof.
  intros He. unfold rates.
  destruct (truediv (Int dp) (Float e)) as [pps|y] eqn:Hp; cbn -[truediv].
  - destruct (truediv (Int (db * 8)) (Float e)) as [bps|y] eqn:Hb; cbn.
    + discriminate.
    + intros H. injection H as <-. apply (truediv_int_float_raises _ e y He Hb).
  - intros H. injection H as <-. apply (truediv_int_float_raises _ e y He Hp).
Qed.

Lemma tick_outcome (w : list (float * float)) (dp db : Z) (e : float) :
  match fst (tick w dp db e) with
  | Ok (pps, bps) => bps = Int 0 \/ exists f, bps = Float f
  | Raise x => x = OverflowError
  end.
Proof.
  unfold tick. destruct (0 <? e)%float eqn:He; [|left; reflexivity].
  destruct (rates dp db e) as [[pps bps]|x] eqn:Hr; cbn.
  - right. eauto.
  - apply (rates_raises dp db e x (float_pos_nonzero e He) Hr).
Qed.

Lemma snapshot_raises (st : stats) (x : exn) :
  snapshot st = Raise x -> x = OverflowError.
Proof.
  unfold snapshot.
  destruct (min_seq st) as [mn|], (max_seq st) as [mx|]; try discriminate.
  destruct (0 <? mx - mn + 1) eqn:Hpos; [|discriminate].
  apply Z.ltb_lt in Hpos.
  change (truediv (Int ?a) (Int ?c)) with (int_truediv a c).
  destruct (int_truediv _ _) as [loss|y] eqn:Hdiv; cbn; [discriminate|].
  intros H. injection H as <-.
  eapply int_truediv_raises; [|exact Hdiv]. lia.
Qed.

Lemma snapshot_unbound (st : stats) (s : snapshot_t) :
  snapshot st = Ok s -> received s = None ->
  min_seq st = None \/ max_seq st = None.
Proof.
  unfold snapshot.
  destruct (min_seq st) as [mn|]; [|left; reflexivity].
  destruct (max_seq st) as [mx|]; [|right; reflexivity].
  destruct (0 <? mx - mn + 1).
  - destruct (truediv _ _); [|discriminate].
    intros H. injection H as <-. discriminate.
  - intros H. injection H as <-. discriminate.
Qed.

Lemma history_raises (te : float) (n i : Z) (w : list (float * float))
    (x : exn) :
  history te n i w = Raise x -> x = OverflowError.
Proof.
  revert i. induction w as [|[p q] w IH]; intros i; [discriminate|].
  cbn [history].
  destruct (float_of_int n) as [fn|y] eqn:Hn; cbn -[truediv float_of_int];
    [|intros H; injection H as <-; apply (float_of_int_raises n y Hn)].
  destruct (float_of_int i) as [fi|y] eqn:Hi; cbn -[truediv float_of_int];
    [|intros H; injection H as <-; apply (float_of_int_raises i y Hi)].
  rewrite (truediv_float_int q _ _ float_of_int_million eq_refl).
  cbn -[float_of_int].
  destruct (history te n (i + 1) w) as [more|y] eqn:Hh; cbn; [discriminate|].
  intros H. injection H as <-. apply (IH (i + 1) Hh).
Qed.

Lemma final_summary_raises (te : float) (st : stats) (s : snapshot_t)
    (x : exn) :
  final_summary te st s = Raise x ->
  x = OverflowError \/ (x = UnboundLocalError /\ received s = None).
Proof.
  unfold final_summary.
  destruct (0 <? te)%float eqn:Hte.
  - pose proof (float_pos_nonzero te Hte) as Hnz.
    destruct (truediv (Int (packets_received st)) (Float te)) as [r|y] eqn:Hr;
      cbn -[truediv history missing_packets];
      [|intros H; injection H as <-; left;
        apply (truediv_int_float_raises _ te y Hnz Hr)].
    destruct (truediv (Int (bytes_received st * 8)) (Float te)) as [q|y] eqn:Hq;
      cbn -[truediv history missing_packets];
      [|intros H; injection H as <-; left;
        apply (truediv_int_float_raises _ te y Hnz Hq)].
    rewrite (truediv_float_int q _ _ float_of_int_million eq_refl).
    cbn -[history missing_packets].
    unfold missing_packets. destruct (received s) as [rcv|]; cbn -[history].
    + destruct (history _ _ _ _) as [h|y] eqn:Hh; cbn; [discriminate|].
      intros H. injection H as <-. left. apply (history_raises _ _ _ _ y Hh).
    + intros H. injection H as <-. right. split; reflexivity.
  - cbn -[history missing_packets].
    unfold missing_packets. destruct (received s) as [rcv|]; cbn -[history].
    + destruct (history _ _ _ _) as [h|y] eqn:Hh; cbn; [discriminate|].
      intros H. injection H as <-. left. apply (history_raises _ _ _ _ y Hh).
    + intros H. injection H as <-. right. split; reflexivity.
Qed.

(** ** The sender's stream *)

Lemma sender_report_counters (now : float) (st : Sender.state) :
  Sender.packets_sent (snd (Sender.report now st)) = Sender.packets_sent st /\
  Sender.bytes_sent (snd (Sender.report now st)) = Sender.bytes_sent st.
Proof.
  unfold Sender.report.
  destruct (1 <=? now - Sender.last_report_time st)%float; [|split; reflexivity].
  match goal with
  | |- context [match ?c with Ok _ => _ | Raise _ => _ end] => destruct c
  end; split; reflexivity.
Qed.

Lemma sender_iteration_sent (use_random_size : bool) (packet_size draw : Z)
    (now : float) (st : Sender.state) :
  match Sender.iteration use_random_size packet_size draw now st with
  | (Some packet, _, st') =>
      exists size,
        size_allowed use_random_size packet_size size /\
        packet = encode (Sender.packets_sent st) size /\
        Sender.packets_sent st' = Sender.packets_sent st + 1 /\
        Sender.bytes_sent st' = Sender.bytes_sent st + size
  | (None, line, st') =>
      use_random_size = true /\ packet_size < 64 /\
      line = Raise ValueError /\ st' = st
  end.
Proof.
  unfold Sender.iteration, Sender.choose_size, Sender.randint, size_allowed.
  assert (forall size,
    let st1 := {| Sender.packets_sent := Sender.packets_sent st + 1;
                  Sender.bytes_sent := Sender.bytes_sent st + size;
                  Sender.last_report_time := Sender.last_report_time st;
                  Sender.last_packets_sent := Sender.last_packets_sent st;
                  Sender.last_bytes_sent := Sender.last_bytes_sent st |} in
    Sender.packets_sent (snd (Sender.report now st1))
    = Sender.packets_sent st + 1 /\
    Sender.bytes_sent (snd (Sender.report now st1))
    = Sender.bytes_sent st + size) as Hrep
    by (intros size st1; apply (sender_report_counters now st1)).
  destruct use_random_size.
  - destruct (packet_size <? 64) eqn:Hsmall.
    + apply Z.ltb_lt in Hsmall. repeat split; [exact Hsmall].
    + apply Z.ltb_ge in Hsmall.
      set (size := 64 + draw mod (packet_size - 64 + 1)).
      specialize (Hrep size). cbn zeta in Hrep.
      destruct (Sender.report now _) as [line st']. cbn [snd] in Hrep.
      exists size. split; [|split; [reflexivity | exact Hrep]].
      pose proof (Z.mod_pos_bound draw (packet_size - 64 + 1) ltac:(lia)).
      unfold size. lia.
  - specialize (Hrep packet_size). cbn zeta in Hrep.
    destruct (Sender.report now _) as [line st']. cbn [snd] in Hrep.
    exists packet_size. split; [reflexivity|]. split; [reflexivity | exact Hrep].
Qed.

Lemma sender_run_sent (use_random_size : bool) (packet_size : Z)
    (inputs : list (Z * float)) (st : Sender.state) :
  let '(sent, res, st') :=
    Sender.run use_random_size packet_size inputs st in
  exists sizes,
    Forall (size_allowed use_random_size packet_size) sizes /\
    sent = zip_with encode (seqZ (Sender.packets_sent st) (len sizes)) sizes /\
    Sender.packets_sent st' = Sender.packets_sent st + len sizes /\
    Sender.bytes_sent st' = Sender.bytes_sent st + sum_sizes sizes /\
    (res = Ok tt -> len sizes = len inputs).
Proof.
  revert st. induction inputs as [|[draw now] rest IH]; intros st.
  - cbn [Sender.run]. exists []. unfold len. cbn.
    repeat split; [constructor | lia | lia].
  - cbn [Sender.run].
    pose proof (sender_iteration_sent use_random_size packet_size draw now st)
      as Hit.
    destruct (Sender.iteration use_random_size packet_size draw now st)
      as [[[packet|] [line|e]] st1].
    + destruct Hit as (size & Hsize & -> & Hp & Hb).
      specialize (IH st1).
      destruct (Sender.run use_random_size packet_size rest st1)
        as [[more res] st2].
      destruct IH as (sizes & Hall & -> & Hp2 & Hb2 & Hres).
      exists (size :: sizes). split; [constructor; assumption|].
      unfold len in *. cbn [length sum_sizes foldr]. fold (sum_sizes sizes).
      rewrite Hp in *. split.
      * rewrite (seqZ_cons (Sender.packets_sent st)
                   (Z.of_nat (S (length sizes)))) by lia.
        cbn [zip_with]. f_equal.
        rewrite Nat2Z.inj_succ, Z.pred_succ, <- Z.add_1_r. reflexivity.
      * repeat split; try lia. intros Hok. specialize (Hres Hok). lia.
    + destruct Hit as (size & Hsize & -> & Hp & Hb).
      exists [size]. split; [constructor; [assumption | constructor]|].
      unfold len. cbn [length sum_sizes foldr]. split.
      * rewrite seqZ_cons by lia. reflexivity.
      * repeat split; try lia. discriminate.
    + destruct Hit as (_ & _ & Hline & _). discriminate Hline.
    + destruct Hit as (_ & _ & _ & ->).
      exists []. unfold len. cbn.
      repeat split; [constructor | lia | lia | discriminate].
Qed.

(** X15: the sender numbers its datagrams consecutively: the datagrams
    of a run are [encode] of [packets_sent], [packets_sent + 1], ... at
    sizes the mode allows, and each adds 1 to [packets_sent] and its
    [current_size] to [bytes_sent]. *)
Theorem sender_numbers_datagrams (use_random_size : bool) (packet_size : Z)
    (inputs : list (Z * float)) (st : Sender.state) :
  let '(sent, res, st') :=
    Sender.run use_random_size packet_size inputs st in
  exists sizes,
    Forall (size_allowed use_random_size packet_size) sizes /\
    sent = zip_with encode (seqZ (Sender.packets_sent st) (len sizes)) sizes /\
    Sender.packets_sent st' = Sender.packets_sent st + len sizes /\
    Sender.bytes_sent st' = Sender.bytes_sent st + sum_sizes sizes /\
    (res = Ok tt -> len sizes = len inputs).
Proof. apply sender_run_sent. Qed.

Lemma sender_numbers_datagrams_witness :
  let '(sent, res, st') :=
    Sender.run false 16 [(0, 1%float); (0, 2%float)] (Sender.initial 0) in
  res = Ok tt /\
  sent = [encode 0 16; encode 1 16] /\
  Sender.packets_sent st' = 2 /\ Sender.bytes_sent st' = 32.
Proof.
  pose proof (sender_numbers_datagrams false 16
                [(0, 1%float); (0, 2%float)] (Sender.initial 0)) as H.
  destruct (Sender.run false 16 [(0, 1%float); (0, 2%float)]
              (Sender.initial 0)) as [[sent res] st'] eqn:Hrun.
  assert (res = Ok tt) as Hres
    by (vm_compute in Hrun; injection Hrun as _ <- _; reflexivity).
  destruct H as (sizes & Hall & Hsent & Hp & Hb & Hlen).
  specialize (Hlen Hres). unfold len in Hlen. cbn [length] in Hlen.
  destruct sizes as [|s1 [|s2 [|s3 sizes]]]; cbn [length] in Hlen; try lia.
  apply Forall_cons in Hall as [H1 Hall].
  apply Forall_cons in Hall as [H2 _].
  unfold size_allowed in H1, H2. subst s1 s2.
  split; [exact Hres|]. split; [exact Hsent|].
  split; [exact Hp | exact Hb].
Defined.

(** ** The sender's stream through the receiver *)

Lemma str_int_length_bound (n : Z) :
  0 <= n -> forall d, 1 <= d -> n < 10 ^ d -> len (str_int n) <= d.
Proof.
  unfold str_int, len.
  induction n as [n IH] using (well_founded_induction (Z.lt_wf 0)).
  intros Hn d Hd Hlt. destruct (n <? 0) eqn:Hneg; [lia|].
  destruct (Z_lt_dec n 10) as [Hsmall | Hbig].
  - rewrite (digits_acc_small n Hsmall). cbn [length]. lia.
  - rewrite (digits_acc_snoc n ltac:(lia)), length_app. cbn [length].
    assert (2 <= d) as Hd2.
    { destruct (Z_lt_dec d 2); [|lia].
      assert (d = 1) as -> by lia. rewrite Z.pow_1_r in Hlt. lia. }
    assert (0 <= n / 10 < n) as Hdiv
      by (split; [apply Z.div_pos; lia | apply Z.div_lt; lia]).
    specialize (IH (n / 10) ltac:(lia) ltac:(lia) (d - 1) ltac:(lia)).
    destruct (n / 10 <? 0) eqn:Hneg'; [lia|].
    assert (n / 10 < 10 ^ (d - 1)) as Hlt'.
    { apply Z.div_lt_upper_bound; [lia|].
      rewrite <- Z.pow_succ_r by lia.
      replace (Z.succ (d - 1)) with d by lia. exact Hlt. }
    specialize (IH Hlt'). lia.
Qed.






(** ** The sender's rate line and its random sizes *)




(** X18: with [--random] and a packet size below 64 the range of
    [randint] is empty: the first pass raises [ValueError] before
    anything is sent or counted. *)
Theorem random_size_below_64_sends_nothing (packet_size : Z)
    (inputs : list (Z * float)) (st : Sender.state) :
  packet_size < 64 -> inputs <> [] ->
  Sender.run true packet_size inputs st = ([], Raise ValueError, st).
Proof.
  intros Hsmall Hne. destruct inputs as [|[draw now] rest]; [congruence|].
  cbn [Sender.run]. unfold Sender.iteration, Sender.choose_size, Sender.randint.
  destruct (packet_size <? 64) eqn:Hlt; [reflexivity|].
  apply Z.ltb_ge in Hlt. lia.
Qed.

Lemma random_size_below_64_sends_nothing_witness :
  32 < 64 /\ [(5, 1%float)] <> [] /\
  Sender.run true 32 [(5, 1%float)] (Sender.initial 0)
  = ([], Raise ValueError, Sender.initial 0).
Proof.
  split; [lia|]. split; [discriminate|].
  apply (random_size_below_64_sends_nothing 32); [lia | discriminate].
Defined.

(** * Properties under the interpreter's limits *)

(** ** The digit limit *)

Lemma over_limit_true (limit digits : Z) :
  over_limit limit digits = true ->
  0 < limit /\ limit < digits /\ str_digits_check_threshold < digits.
Proof.
  unfold over_limit. intros H.
  apply andb_true_iff in H as [H Hl]. apply andb_true_iff in H as [Ht Hp].
  apply Z.ltb_lt in Hl, Ht, Hp. lia.
Qed.

Lemma over_limit_false (limit digits : Z) :
  over_limit limit digits = false ->
  limit <= 0 \/ digits <= limit \/ digits <= str_digits_check_threshold.
Proof.
  unfold over_limit. intros H.
  destruct (str_digits_check_threshold <? digits) eqn:Ht;
    [|apply Z.ltb_ge in Ht; lia].
  destruct (0 <? limit) eqn:Hp; [|apply Z.ltb_ge in Hp; lia].
  destruct (limit <? digits) eqn:Hl; [discriminate H|].
  apply Z.ltb_ge in Hl. lia.
Qed.

(** The limit 0 switches the check off, and up to 640 digits are never
    checked. *)
Lemma over_limit_off (digits : Z) : over_limit 0 digits = false.
Proof.
  unfold over_limit. rewrite andb_false_r. reflexivity.
Qed.

Lemma over_limit_short (limit digits : Z) :
  digits <= str_digits_check_threshold -> over_limit limit digits = false.
Proof.
  intros H. unfold over_limit.
  destruct (str_digits_check_threshold <? digits) eqn:Ht; [|reflexivity].
  apply Z.ltb_lt in Ht. lia.
Qed.

Lemma over_limit_long (limit digits : Z) :
  0 < limit -> str_digits_check_threshold <= limit -> limit < digits ->
  over_limit limit digits = true.
Proof.
  intros Hp Ht Hl. unfold over_limit.
  rewrite !andb_true_iff, !Z.ltb_lt. lia.
Qed.

(** The digits of [str(n)]: all of its bytes for a non-negative [n], and
    more than [d] of them from [10 ^ d] on. *)
Lemma count_digits_all (s : bytes) :
  Forall (fun c => is_digit c = true) s -> count_digits s = len s.
Proof.
  intros Hall. unfold count_digits. f_equal.
  induction Hall as [|c r Hc _ IH]; [reflexivity|].
  cbn [List.filter]. rewrite Hc. f_equal. exact IH.
Qed.

Lemma decimal_digits_of_str_int (n : Z) :
  0 <= n ->
  decimal_digits_of n = len (str_int n) /\
  count_digits (str_int n) = decimal_digits_of n.
Proof.
  intros Hn. unfold decimal_digits_of, str_int.
  destruct (n <? 0) eqn:Hneg; [apply Z.ltb_lt in Hneg; lia|].
  rewrite Z.abs_eq by lia. split; [reflexivity|].
  apply count_digits_all, digits_acc_all_digits; [lia|constructor].
Qed.

Lemma digits_acc_long (d : Z) :
  0 <= d -> forall n, 10 ^ d <= n -> d < len (digits_acc n []).
Proof.
  intros Hd. pattern d. apply natlike_ind; [| |exact Hd]; clear d Hd.
  - intros n Hn. destruct (digits_acc_head n [] ltac:(lia)) as (c & r & -> & _).
    unfold len. cbn [length]. lia.
  - intros d Hd IH n Hn.
    rewrite Z.pow_succ_r in Hn by lia.
    assert (0 < 10 ^ d) as Hpos by (apply Z.pow_pos_nonneg; lia).
    rewrite digits_acc_snoc by lia.
    rewrite len_app.
    assert (10 ^ d <= n / 10) as Hq
      by (apply Z.div_le_lower_bound; lia).
    specialize (IH _ Hq). unfold len at 2. cbn [length]. lia.
Qed.

Lemma decimal_digits_of_long (d z : Z) :
  0 <= d -> 10 ^ d <= Z.abs z -> d < decimal_digits_of z.
Proof.
  intros Hd Hz. apply (digits_acc_long d Hd _ Hz).
Qed.

(** An int of [10 ^ limit] or more in absolute value is not formatted
    under a limit of 640 digits or more. *)
Lemma format_int_refuses (limit z : Z) :
  str_digits_check_threshold <= limit -> 10 ^ limit <= Z.abs z ->
  format_int limit z = Raise ValueError.
Proof.
  intros Ht Hz. unfold format_int.
  assert (0 < limit) as Hp by (unfold str_digits_check_threshold in Ht; lia).
  rewrite (over_limit_long limit _ Hp Ht
             (decimal_digits_of_long limit z ltac:(lia) Hz)).
  reflexivity.
Qed.

(** ** [decode] under the limit *)

Lemma split_before_delimiter (data : bytes) :
  index0 (bytes_split ":" data) = Ok (before_delimiter data).
Proof.
  induction data as [|c r IH]; cbn [bytes_split before_delimiter].
  - reflexivity.
  - destruct (Byte.eqb c ":"); [reflexivity|].
    destruct (bytes_split ":" r) as [|h t]; [discriminate IH|].
    cbn in IH |- *. congruence.
Qed.

Lemma decode_limited_before_delimiter (limit : Z) (data : bytes) :
  decode_limited limit data
  = int_of_bytes_limited limit (before_delimiter data).
Proof.
  unfold decode_limited. rewrite split_before_delimiter. reflexivity.
Qed.

(** Where the limit does not apply, [decode_limited] is [decode]; and
    what [decode_limited] returns, [decode] returns. *)
Lemma decode_limited_within (limit : Z) (data : bytes) :
  over_limit limit (count_digits (before_delimiter data)) = false ->
  decode_limited limit data = decode data.
Proof.
  intros Hlim.
  rewrite decode_limited_before_delimiter, decode_before_delimiter.
  unfold int_of_bytes_limited.
  destruct (int_of_bytes (before_delimiter data)) as [n|e]; cbn;
    [rewrite Hlim|]; reflexivity.
Qed.

(** With the limit switched off nothing is refused for its length. *)
Lemma decode_limited_off (data : bytes) :
  decode_limited 0 data = decode data.
Proof.
  apply decode_limited_within, over_limit_off.
Qed.

Lemma decode_limited_returns (limit : Z) (data : bytes) (n : Z) :
  decode_limited limit data = Ok n -> decode data = Ok n.
Proof.
  rewrite decode_limited_before_delimiter, decode_before_delimiter.
  unfold int_of_bytes_limited.
  destruct (int_of_bytes (before_delimiter data)) as [m|e]; cbn;
    [|discriminate].
  destruct (over_limit _ _); [discriminate|]. intros H. exact H.
Qed.

Lemma decode_limited_raises (limit : Z) (data : bytes) (e : exn) :
  decode_limited limit data = Raise e -> e = ValueError.
Proof.
  rewrite decode_limited_before_delimiter. unfold int_of_bytes_limited.
  destruct (int_of_bytes (before_delimiter data)) as [m|y] eqn:Hint; cbn.
  - destruct (over_limit _ _); [|discriminate]. congruence.
  - intros H. injection H as <-. apply (int_of_bytes_raises _ _ Hint).
Qed.

(** C3 (amended): under the interpreter's digit limit, [decode] raises,
    and then a [ValueError], exactly when the bytes before the first
    delimiter, or all bytes when there is no delimiter, are not an int
    literal (optional whitespace, an optional sign, digits with single
    underscores allowed between them, optional whitespace) or hold more
    digits than the limit allows. On every other input it returns the
    integer the literal denotes, which is negative under a minus sign.
    The limit applies to more than 640 digits and is 4300 digits unless
    configured otherwise; the limit 0 switches it off. *)
Theorem decode_limited_int_literal (limit : Z) (data : bytes) :
  let digits := count_digits (before_delimiter data) in
  match decode_limited limit data with
  | Ok n =>
      int_literal (before_delimiter data) n /\
      over_limit limit digits = false
  | Raise e =>
      e = ValueError /\
      ((forall n, ~ int_literal (before_delimiter data) n) \/
       over_limit limit digits = true)
  end.
Proof.
  intros digits. rewrite decode_limited_before_delimiter.
  unfold int_of_bytes_limited.
  destruct (int_of_bytes (before_delimiter data)) as [n|e] eqn:Hint; cbn.
  - fold digits. destruct (over_limit limit digits) eqn:Hlim.
    + split; [reflexivity|]. right. reflexivity.
    + split; [|reflexivity]. apply int_of_bytes_sound, Hint.
  - split.
    + apply (int_of_bytes_raises _ _ Hint).
    + left. intros n Hn. apply int_of_bytes_complete in Hn. congruence.
Qed.

(** Under the default limit a prefix of 4300 digits decodes and one of
    4301 digits does not. *)
Lemma decode_limited_at_the_default_limit :
  decode_limited default_max_str_digits (repeat "1"%byte 4300 ++ b ":XX")
  = Ok ((10 ^ 4300 - 1) / 9) /\
  decode_limited default_max_str_digits (repeat "1"%byte 4301 ++ b ":XX")
  = Raise ValueError.
Proof.
  split; vm_compute; reflexivity.
Qed.

(** ** The datagram under the limits *)

Lemma before_delimiter_prefixed (p r : bytes) :
  Forall (fun c => Byte.eqb c ":" = false) p ->
  before_delimiter (p ++ ":"%byte :: r) = p.
Proof.
  intros Hall. induction Hall as [|c q Hc _ IH]; cbn [app before_delimiter].
  - reflexivity.
  - rewrite Hc. f_equal. exact IH.
Qed.

(** What [encode_checked] returns is the datagram of [encode]. *)
Lemma encode_checked_returns (limit max_alloc n size : Z) (packet : bytes) :
  encode_checked limit max_alloc n size = Ok packet ->
  packet = encode n size.
Proof.
  unfold encode_checked, str_int_limited, bytes_repeat_checked,
    bytes_concat_checked, encode.
  destruct (over_limit _ _); cbn; [discriminate|].
  destruct (_ || _); cbn; [discriminate|].
  destruct (max_alloc <? _); cbn; [discriminate|].
  destruct (max_alloc <? _); cbn; [discriminate|].
  intros H. injection H as <-. reflexivity.
Qed.

(** How [encode_checked] fails: the sequence number has too many digits
    for [str], the filler count of line 56 is outside the index range,
    or the filler or the datagram is larger than the allocator grants. *)
Lemma encode_checked_outcome (limit max_alloc n size : Z) :
  let prefix := str_int n ++ [":"%byte] in
  let filler := size - len prefix - 1 in
  match encode_checked limit max_alloc n size with
  | Ok packet =>
      packet = encode n size /\
      over_limit limit (decimal_digits_of n) = false /\
      - maxsize - 1 <= filler <= maxsize /\
      filler <= max_alloc /\ len prefix + Z.max 0 filler <= max_alloc
  | Raise e =>
      (e = ValueError /\ over_limit limit (decimal_digits_of n) = true) \/
      (e = OverflowError /\ (filler < - maxsize - 1 \/ maxsize < filler)) \/
      (e = MemoryError /\
       (max_alloc < filler \/ max_alloc < len prefix + Z.max 0 filler))
  end.
Proof.
  intros prefix filler.
  destruct (encode_checked limit max_alloc n size) as [packet|e] eqn:Henc.
  - split; [apply (encode_checked_returns _ _ _ _ _ Henc)|].
    revert Henc.
    unfold encode_checked, str_int_limited, bytes_repeat_checked,
      bytes_concat_checked.
    destruct (over_limit _ _); cbn; [discriminate|].
    fold prefix. fold filler.
    destruct (_ || _) eqn:Hrange; cbn; [discriminate|].
    destruct (max_alloc <? filler) eqn:Hfill; cbn; [discriminate|].
    rewrite len_bytes_repeat.
    destruct (max_alloc <? len prefix + Z.max 0 filler) eqn:Hsum; cbn; [discriminate|].
    intros _. apply orb_false_iff in Hrange as [Hlo Hhi].
    apply Z.ltb_ge in Hlo, Hhi, Hfill, Hsum. repeat split; lia || reflexivity.
  - revert Henc.
    unfold encode_checked, str_int_limited, bytes_repeat_checked,
      bytes_concat_checked.
    destruct (over_limit _ _); cbn;
      [intros H; injection H as <-; left; split; reflexivity|].
    fold prefix. fold filler.
    destruct (_ || _) eqn:Hrange; cbn.
    { intros H. injection H as <-. right. left. split; [reflexivity|].
      apply orb_true_iff in Hrange as [H|H]; apply Z.ltb_lt in H; lia. }
    destruct (max_alloc <? filler) eqn:Hfill; cbn.
    { intros H. injection H as <-. right. right. split; [reflexivity|].
      apply Z.ltb_lt in Hfill. lia. }
    rewrite len_bytes_repeat.
    destruct (max_alloc <? len prefix + Z.max 0 filler) eqn:Hsum; cbn; [|discriminate].
    intros H. injection H as <-. right. right. split; [reflexivity|].
    apply Z.ltb_lt in Hsum. lia.
Qed.

Lemma encode_checked_fits (limit max_alloc n size : Z) :
  over_limit limit (decimal_digits_of n) = false ->
  len (str_int n ++ [":"%byte]) <= size ->
  size <= maxsize -> size <= max_alloc ->
  encode_checked limit max_alloc n size = Ok (encode n size).
Proof.
  intros Hlim Hfit Hmax Halloc.
  pose proof (encode_checked_outcome limit max_alloc n size) as Hout.
  pose proof (len_nonneg (str_int n ++ [":"%byte])) as Hp.
  assert (0 < maxsize) as Hm by (vm_compute; reflexivity).
  cbv zeta in Hout.
  destruct (encode_checked limit max_alloc n size) as [packet|e].
  - destruct Hout as [-> _]. reflexivity.
  - destruct Hout as [[_ H]|[[_ H]|[_ H]]]; [congruence|lia|lia].
Qed.

Lemma decode_limited_prefixed (limit n : Z) (filler : bytes) :
  0 <= n -> over_limit limit (decimal_digits_of n) = false ->
  decode_limited limit (str_int n ++ ":"%byte :: filler) = Ok n.
Proof.
  intros Hn Hlim. rewrite decode_limited_within.
  - apply (decode_prefixed n _ Hn).
  - rewrite before_delimiter_prefixed.
    + destruct (decimal_digits_of_str_int n Hn) as [_ ->]. exact Hlim.
    + unfold str_int.
      destruct (n <? 0) eqn:Hneg; [apply Z.ltb_lt in Hneg; lia|].
      eapply Forall_impl;
        [apply digits_acc_all_digits; [lia|constructor]|].
      intros c Hc. cbn beta in Hc |- *.
      destruct (Byte.eqb c ":") eqn:Heq; [|reflexivity].
      apply Byte.byte_dec_bl in Heq. subst c. discriminate Hc.
Qed.

Lemma len_prefix_power_of_ten (d : Z) :
  0 <= d -> len (str_int (10 ^ d) ++ [":"%byte]) <= d + 2.
Proof.
  intros Hd. rewrite len_app. change (len [":"%byte]) with 1.
  enough (len (str_int (10 ^ d)) <= d + 1) by lia.
  apply str_int_length_bound; [apply Z.pow_nonneg; lia|lia|].
  apply Z.pow_lt_mono_r; lia.
Qed.

Lemma encode_checked_power_of_ten (limit max_alloc d size : Z) :
  str_digits_check_threshold <= limit -> limit <= d ->
  encode_checked limit max_alloc (10 ^ d) size = Raise ValueError.
Proof.
  intros Ht Hd. unfold str_digits_check_threshold in Ht.
  assert (0 <= 10 ^ d) as Hn by (apply Z.pow_nonneg; lia).
  unfold encode_checked, str_int_limited.
  rewrite (over_limit_long limit (decimal_digits_of (10 ^ d)));
    [reflexivity | lia | exact Ht |].
  apply Z.le_lt_trans with d; [exact Hd|].
  apply decimal_digits_of_long; [lia|].
  rewrite Z.abs_eq by exact Hn. apply Z.le_refl.
Qed.

(** C6 as stated does not hold: for a size above the index range the
    prefix ["0:"] fits and line 56 raises [OverflowError]; and for the
    sequence number [10 ^ 4300], of 4301 digits, the prefix fits in 4400
    bytes and line 56 raises [ValueError]. *)
Lemma roundtrip_fails_at_the_limits :
  (0 <= 0 /\ len (str_int 0 ++ [":"%byte]) <= 2 ^ 63 + 3 /\
   encode_checked default_max_str_digits maxsize 0 (2 ^ 63 + 3)
   = Raise OverflowError) /\
  (0 <= 10 ^ 4300 /\ len (str_int (10 ^ 4300) ++ [":"%byte]) <= 4400 /\
   encode_checked default_max_str_digits maxsize (10 ^ 4300) 4400
   = Raise ValueError).
Proof.
  split.
  - split; [lia|]. split; vm_compute; [discriminate|reflexivity].
  - split; [apply Z.pow_nonneg; discriminate|]. split.
    + apply Z.le_trans with (4300 + 2);
        [apply len_prefix_power_of_ten|]; discriminate.
    + apply encode_checked_power_of_ten; discriminate.
Qed.

(** C6 (amended): for every non-negative [n] that [str] converts under
    the digit limit and whose prefix ["<n>:"] fits in [size] bytes,
    with [size] within the index range and within what the allocator
    grants, line 56 builds the datagram, and decoding it succeeds and
    returns [n]. *)
Theorem roundtrip_within_limits (limit max_alloc n size : Z) :
  0 <= n ->
  over_limit limit (decimal_digits_of n) = false ->
  len (str_int n ++ [":"%byte]) <= size ->
  size <= maxsize -> size <= max_alloc ->
  exists packet,
    encode_checked limit max_alloc n size = Ok packet /\
    decode_limited limit packet = Ok n.
Proof.
  intros Hn Hlim Hfit Hmax Halloc. exists (encode n size).
  split; [apply (encode_checked_fits _ _ _ _ Hlim Hfit Hmax Halloc)|].
  rewrite (encode_fits n size Hfit), <- app_assoc.
  apply (decode_limited_prefixed limit n _ Hn Hlim).
Qed.

Lemma roundtrip_within_limits_witness :
  0 <= 1234 /\
  over_limit default_max_str_digits (decimal_digits_of 1234) = false /\
  len (str_int 1234 ++ [":"%byte]) <= 64 /\
  64 <= maxsize /\ 64 <= 65507 /\
  exists packet,
    encode_checked default_max_str_digits 65507 1234 64 = Ok packet /\
    decode_limited default_max_str_digits packet = Ok 1234.
Proof.
  assert (len (str_int 1234 ++ [":"%byte]) <= 64) as Hfit
    by (vm_compute; discriminate).
  assert (64 <= maxsize) as Hmax by (vm_compute; discriminate).
  split; [lia|]. split; [reflexivity|]. split; [exact Hfit|].
  split; [exact Hmax|]. split; [lia|].
  apply (roundtrip_within_limits default_max_str_digits 65507 1234 64);
    [lia | reflexivity | exact Hfit | exact Hmax | lia].
Defined.

(** X12: the datagram of line 56 and 59 for every sequence number and
    packet size. When the line returns, a size up to the length of the
    prefix ["<n>:"] cuts the prefix to that size, a larger size gives
    one byte less than asked for, and a negative size drops that many
    bytes from the end of the prefix. It raises [ValueError] when the
    sequence number has more digits than [str] converts,
    [OverflowError] when the filler count is outside the index range,
    and [MemoryError] when the filler or the datagram is larger than
    the allocator grants. *)
Theorem encode_checked_length (limit max_alloc n size : Z) :
  let prefix := str_int n ++ [":"%byte] in
  let filler := size - len prefix - 1 in
  match encode_checked limit max_alloc n size with
  | Ok packet =>
      len packet
      = (if size <? 0 then Z.max 0 (len prefix + size)
         else if size <=? len prefix then size
         else size - 1)
  | Raise e =>
      (e = ValueError /\ over_limit limit (decimal_digits_of n) = true) \/
      (e = OverflowError /\ (filler < - maxsize - 1 \/ maxsize < filler)) \/
      (e = MemoryError /\
       (max_alloc < filler \/ max_alloc < len prefix + Z.max 0 filler))
  end.
Proof.
  intros prefix filler.
  pose proof (encode_checked_outcome limit max_alloc n size) as Hout.
  cbv zeta in Hout. fold prefix in Hout. fold filler in Hout.
  destruct (encode_checked limit max_alloc n size) as [packet|e].
  - destruct Hout as [-> _]. apply len_encode.
  - exact Hout.
Qed.

(** A size above the index range, and a filler the allocator does not
    grant. *)
Lemma encode_checked_refusals :
  encode_checked default_max_str_digits maxsize 0 (- 2 ^ 63 + 2)
  = Raise OverflowError /\
  encode_checked default_max_str_digits 65507 0 (2 ^ 62)
  = Raise MemoryError.
Proof.
  split; vm_compute; reflexivity.
Qed.

(** ** How a report can fail under the limit *)

Lemma format_int_raises (limit z : Z) (x : exn) :
  format_int limit z = Raise x -> x = ValueError /\ 0 < limit.
Proof.
  unfold format_int. destruct (over_limit _ _) eqn:Hlim; [|discriminate].
  intros H. injection H as <-. split; [reflexivity|].
  apply over_limit_true in Hlim. lia.
Qed.

Lemma format_optional_int_raises (limit : Z) (o : option Z) (x : exn) :
  format_optional_int limit o = Raise x -> x = ValueError /\ 0 < limit.
Proof.
  destruct o as [z|]; [apply format_int_raises|discriminate].
Qed.

Lemma format_int_unit (limit z : Z) (u : unit) (A : Type)
    (k : unit -> result A) :
  format_int limit z = Ok u -> k u = k tt.
Proof.
  destruct u. reflexivity.
Qed.

Lemma final_summary_limited_outcome (limit : Z) (te : float) (st : stats)
    (s : snapshot_t) :
  match final_summary_limited limit te st s with
  | Ok r => final_summary te st s = Ok r
  | Raise x =>
      (x = ValueError /\ 0 < limit) \/ final_summary te st s = Raise x
  end.
Proof.
  unfold final_summary_limited, final_summary.
  destruct (format_int limit (packets_received st)) as [[]|y] eqn:H1;
    [|cbn; left; apply (format_int_raises _ _ _ H1)].
  destruct (format_int limit (bytes_received st)) as [[]|y] eqn:H2;
    [|cbn; left; apply (format_int_raises _ _ _ H2)].
  destruct (if (0 <? te)%float
            then truediv (Int (packets_received st)) (Float te) ≫= _
            else _) as [rate|y];
    [|cbn; right; reflexivity].
  destruct (if (0 <? te)%float
            then truediv (Int (bytes_received st * 8)) (Float te) ≫= _
            else _) as [bits|y];
    [|cbn; right; reflexivity].
  destruct (format_optional_int limit (min_seq st)) as [[]|y] eqn:H3;
    [|cbn; left; apply (format_optional_int_raises _ _ _ H3)].
  destruct (format_optional_int limit (max_seq st)) as [[]|y] eqn:H4;
    [|cbn; left; apply (format_optional_int_raises _ _ _ H4)].
  destruct (format_int limit (expected s)) as [[]|y] eqn:H5;
    [|cbn; left; apply (format_int_raises _ _ _ H5)].
  destruct (missing_packets s) as [lost|y];
    [|cbn; right; reflexivity].
  cbn [mbind result_bind].
  destruct (format_int limit lost) as [[]|y] eqn:H6;
    [|cbn; left; apply (format_int_raises _ _ _ H6)].
  destruct (format_int limit (duplicates st)) as [[]|y] eqn:H7;
    [|cbn; left; apply (format_int_raises _ _ _ H7)].
  destruct (format_int limit (out_of_order st)) as [[]|y] eqn:H8;
    [|cbn; left; apply (format_int_raises _ _ _ H8)].
  destruct (history te (len (one_sec_rates st)) 0 (one_sec_rates st))
    as [hist|y]; cbn; [reflexivity|right; reflexivity].
Qed.

Lemma final_summary_limited_off (te : float) (st : stats) (s : snapshot_t) :
  final_summary_limited 0 te st s = final_summary te st s.
Proof.
  pose proof (final_summary_limited_outcome 0 te st s) as Hout.
  destruct (final_summary_limited 0 te st s) as [r|x].
  - symmetry. exact Hout.
  - destruct Hout as [[_ Hpos]|Hout]; [lia|]. symmetry. exact Hout.
Qed.

(** What a report returns under the limit, it returns without it, with
    the same state; a periodic report does not depend on the limit. *)
Lemma print_stats_limited_returns (limit : Z) (final : bool) (now : float)
    (st : stats) (r : report) :
  fst (print_stats_limited limit final now st) = Ok r ->
  print_stats final now st = print_stats_limited limit final now st.
Proof.
  unfold print_stats_limited, print_stats.
  destruct (tick _ _ _ _) as [[[pps bps]|y] w]; [|reflexivity].
  cbn -[average snapshot final_summary final_summary_limited truediv].
  destruct (average w) as [a|y]; [|reflexivity].
  cbn -[snapshot final_summary final_summary_limited truediv].
  destruct (snapshot (set_one_sec_rates w st)) as [s|y]; [|reflexivity].
  cbn -[final_summary final_summary_limited truediv].
  destruct final; [|reflexivity].
  pose proof (final_summary_limited_outcome limit (now - start_time st)
                (set_one_sec_rates w st) s) as Hout.
  destruct (final_summary_limited _ _ _ s) as [q|y]; cbn.
  - rewrite Hout. reflexivity.
  - discriminate.
Qed.

Lemma print_stats_limited_periodic (limit : Z) (now : float) (st : stats) :
  print_stats_limited limit false now st = print_stats false now st.
Proof.
  reflexivity.
Qed.

Lemma print_stats_limited_off (final : bool) (now : float) (st : stats) :
  print_stats_limited 0 final now st = print_stats final now st.
Proof.
  unfold print_stats_limited, print_stats.
  destruct (tick _ _ _ _) as [[[pps bps]|y] w]; [|reflexivity].
  cbn -[average snapshot final_summary final_summary_limited truediv].
  destruct (average w) as [a|y]; [|reflexivity].
  cbn -[snapshot final_summary final_summary_limited truediv].
  destruct (snapshot (set_one_sec_rates w st)) as [s|y]; [|reflexivity].
  cbn -[final_summary final_summary_limited truediv].
  destruct final; [|reflexivity].
  rewrite final_summary_limited_off. reflexivity.
Qed.

(** X14: a report never divides by zero. With at most ten samples in
    the window, a periodic report can only fail with [OverflowError],
    when an int is too large to convert to a float. The final summary
    can fail for that reason, with [ValueError] when an int it prints
    has more digits than the interpreter's limit allows, and with the
    [UnboundLocalError] of line 94 when a bound is unset. *)
Theorem report_failures_under_the_limit (limit : Z) (final : bool)
    (now : float) (st : stats) (x : exn) :
  (length (one_sec_rates st) <= 10)%nat ->
  fst (print_stats_limited limit final now st) = Raise x ->
  x = OverflowError \/
  (final = true /\
   ((x = ValueError /\ 0 < limit) \/
    (x = UnboundLocalError /\ (min_seq st = None \/ max_seq st = None)))).
Proof.
  intros Hlen. unfold print_stats_limited.
  pose proof (tick_outcome (one_sec_rates st)
                (packets_received st - last_packets st)
                (bytes_received st - last_bytes st)
                (now - last_report_time st)) as Hout.
  pose proof (tick_length (one_sec_rates st)
                (packets_received st - last_packets st)
                (bytes_received st - last_bytes st)
                (now - last_report_time st) Hlen) as Hw.
  destruct (tick _ _ _ _) as [[[pps bps]|y] w]; cbn [fst snd] in Hout, Hw.
  - destruct (average_returns w Hw) as [a Ha].
    cbn -[average snapshot final_summary_limited truediv]. rewrite Ha.
    cbn -[snapshot final_summary_limited truediv].
    destruct (snapshot (set_one_sec_rates w st)) as [s|y] eqn:Hsnap;
      cbn -[final_summary_limited truediv].
    + destruct final.
      * pose proof (final_summary_limited_outcome limit
                      (now - start_time st) (set_one_sec_rates w st) s)
          as Hfin.
        destruct (final_summary_limited _ _ _ s) as [r|y]; cbn;
          [discriminate|].
        intros H. injection H as <-.
        destruct Hfin as [Hval|Hfin];
          [right; split; [reflexivity|]; left; exact Hval|].
        destruct (final_summary_raises _ _ _ _ Hfin) as [-> | [-> Hnone]];
          [left; reflexivity|].
        right. split; [reflexivity|]. right. split; [reflexivity|].
        apply (snapshot_unbound _ _ Hsnap Hnone).
      * destruct (truediv_million bps Hout) as [m Hm]. rewrite Hm. cbn.
        discriminate.
    + intros H. cbn in H. injection H as <-. left.
      apply (snapshot_raises _ _ Hsnap).
  - cbn. intros H. injection H as <-. left. exact Hout.
Qed.

Lemma report_failures_under_the_limit_witness :
  (length (one_sec_rates (initial_stats 0 0)) <= 10)%nat /\
  fst (print_stats_limited default_max_str_digits true 1 (initial_stats 0 0))
  = Raise UnboundLocalError /\
  (UnboundLocalError = OverflowError \/
   (true = true /\
    ((UnboundLocalError = ValueError /\ 0 < default_max_str_digits) \/
     (UnboundLocalError = UnboundLocalError /\
      (min_seq (initial_stats 0 0) = None \/
       max_seq (initial_stats 0 0) = None))))).
Proof.
  assert (length (one_sec_rates (initial_stats 0 0)) <= 10)%nat as Hlen
    by (cbn; lia).
  assert (fst (print_stats_limited default_max_str_digits true 1
                 (initial_stats 0 0))
          = Raise UnboundLocalError) as Hraise by (vm_compute; reflexivity).
  split; [exact Hlen|]. split; [exact Hraise|].
  apply (report_failures_under_the_limit default_max_str_digits true 1
           (initial_stats 0 0) UnboundLocalError Hlen Hraise).
Defined.

(** Under the default limit the final summary raises [ValueError] from
    a packet count of [10 ^ 4300] on, at the first line that prints it. *)
Lemma final_summary_refuses_a_long_count (te : float) (st : stats)
    (s : snapshot_t) :
  10 ^ default_max_str_digits <= packets_received st ->
  final_summary_limited default_max_str_digits te st s = Raise ValueError.
Proof.
  intros Hbig.
  assert (format_int default_max_str_digits (packets_received st)
          = Raise ValueError) as Hfmt.
  { apply format_int_refuses; [discriminate|].
    assert (0 <= 10 ^ default_max_str_digits) as Hpos
      by (apply Z.pow_nonneg; discriminate).
    rewrite Z.abs_eq; [exact Hbig|]. apply Z.le_trans with (1 := Hpos), Hbig. }
  unfold final_summary_limited. rewrite Hfmt. reflexivity.
Qed.
